(** * MA deviation analyzer: a shallow embedding of [ma_deviation_analyzer.py]

    The embedding follows [MADeviationAnalyzer] method by method.

    - Python [float] / [numpy.float64] values are IEEE-754 binary64 numbers
      and are modelled by Rocq's primitive floats ([PrimFloat.float]), whose
      operations round to nearest-even as the hardware does.  Python's
      [a >= b] is [b <=? a] and [a == b] is [a =? b] (so [-0.0 == 0] holds
      and [nan == x] never does).
    - Python [int] values are modelled by [Z]; the ['date'] column of a
      history is a column of integers (time stamps).
    - The string constants ['BUY'], ['SELL'], ['NEUTRAL'] and the strength
      labels ['强'], ['中'], ['弱'], ['无'] are the only values the analyzer
      stores in [DeviationSignal.signal] and [DeviationSignal.strength];
      they are modelled by the enumerations [Signal] and [Strength].
    - Raising an exception is modelled by the [Raise] constructor of
      [Result]; the code is written in the error monad where it calls
      something that can raise.
    - [datetime.now()] is read once by [analyze]; what it returns is an
      argument of the model.  Messages sent to the logger are not modelled.
    - Library functions whose behaviour is not part of the repository
      ([round(x, 2)] and the formatting of floats) are parameters of the
      section that holds the methods using them. *)

From Stdlib Require Import ZArith List Bool String Ascii Lia Floats Uint63 DecimalString.
From Stdlib Require Import Permutation Sorted.
Import ListNotations.

Local Open Scope string_scope.
Local Open Scope Z_scope.

(** ** Python values and exceptions *)

Inductive PyExn : Type :=
| ValueError (msg : string)
| ZeroDivisionError
| IndexError.

Inductive Result (A : Type) : Type :=
| Ok (a : A)
| Raise (e : PyExn).

Arguments Ok {A} a.
Arguments Raise {A} e.

Definition bind {A B : Type} (r : Result A) (k : A -> Result B) : Result B :=
  match r with
  | Ok a => k a
  | Raise e => Raise e
  end.

Notation "x <- r ;; k" := (bind r (fun x => k))
  (at level 61, r at next level, right associativity).

Definition raises {A : Type} (r : Result A) : Prop :=
  exists e, r = Raise e.

Definition returns {A : Type} (r : Result A) : Prop :=
  exists a, r = Ok a.

(** [len(x)] as a Python integer. *)
Definition len {A : Type} (l : list A) : Z := Z.of_nat (List.length l).

(** Conversion of a (small, non-negative) Python integer to a float. *)
Definition float_of_Z (n : Z) : float := PrimFloat.of_uint63 (Uint63.of_Z n).

(** Python's float [/]: raises [ZeroDivisionError] on a zero divisor. *)
Definition py_truediv (x y : float) : Result float :=
  if (y =? 0)%float then Raise ZeroDivisionError else Ok (x / y)%float.

(** [str(n)] for an integer. *)
Definition str_int (n : Z) : string := NilZero.string_of_int (Z.to_int n).

(** Python's [sum] over integers: starts from [0] and adds from the left. *)
Definition sum_int (l : list Z) : Z := fold_left Z.add l 0.

(** Python's ["\n".join(lines)]. *)
Definition join_lines (lines : list string) : string :=
  String.concat (String (ascii_of_nat 10) EmptyString) lines.

(** ** pandas: the operations the analyzer uses *)

(** A [pd.Series] of floats, in index order. *)
Definition Series := list float.

(** [Series.tail(n)]: the last [n] entries for [n > 0], nothing for
    [n = 0], and all but the first [-n] entries for [n < 0]. *)
Definition tail {A : Type} (n : Z) (s : list A) : list A :=
  if n =? 0 then []
  else if 0 <? n then skipn (Z.to_nat (len s - n)) s
  else skipn (Z.to_nat (- n)) s.

(** [Series.sum()]: the entries are accumulated from the left starting at
    [0.0].  This is the order numpy uses for fewer than eight entries; on
    longer series numpy adds pairwise, which can change the last bits of
    the sum.  No general statement below depends on the order. *)
Definition Series_sum (s : Series) : float :=
  fold_left PrimFloat.add s 0%float.

(** [Series.mean()]: the sum divided by the count; [nan] on an empty series. *)
Definition Series_mean (s : Series) : float :=
  (Series_sum s / float_of_Z (len s))%float.

(** A row of the price history: the ['date'] and ['close'] columns. *)
Record Row : Type := mkRow {
  date : Z;
  close : float
}.

Definition DataFrame := list Row.

(** [df['close']]. *)
Definition close_column (df : DataFrame) : Series := map close df.

(** [df.sort_values('date').reset_index(drop=True)]: the rows in ascending
    date order. *)
Fixpoint insert_by_date (r : Row) (df : DataFrame) : DataFrame :=
  match df with
  | [] => [r]
  | r' :: df' =>
      if date r <? date r' then r :: r' :: df'
      else r' :: insert_by_date r df'
  end.

Definition sort_values (df : DataFrame) : DataFrame :=
  fold_left (fun acc r => insert_by_date r acc) df [].

(** [df.iloc[-1]]: [IndexError] on an empty frame. *)
Definition iloc_last (df : DataFrame) : Result Row :=
  match rev df with
  | [] => Raise IndexError
  | r :: _ => Ok r
  end.

(** ** The analyzer's data model *)

Inductive Signal : Type := BUY | SELL | NEUTRAL.

(** [STRONG] is ['强'], [MEDIUM] is ['中'], [WEAK] is ['弱'], [NONE] is ['无']. *)
Inductive Strength : Type := STRONG | MEDIUM | WEAK | NONE.

Definition Signal_eqb (a b : Signal) : bool :=
  match a, b with
  | BUY, BUY | SELL, SELL | NEUTRAL, NEUTRAL => true
  | _, _ => false
  end.

Definition Strength_str (s : Strength) : string :=
  match s with
  | STRONG => "强"
  | MEDIUM => "中"
  | WEAK => "弱"
  | NONE => "无"
  end.

Record DeviationSignal : Type := mkDeviationSignal {
  ma_type : string;
  ma_value : float;
  current_price : float;
  deviation_pct : float;
  signal : Signal;
  strength : Strength;
  reason : string
}.

(** One entry of [raw_data]. *)
Record RawEntry : Type := mkRawEntry {
  raw_value : float;
  raw_deviation_pct : float;
  raw_signal : Signal;
  raw_strength : Strength
}.

Record DeviationAnalysisResult : Type := mkDeviationAnalysisResult {
  code : string;
  name : string;
  result_current_price : float;
  signals : list DeviationSignal;
  overall_signal : Signal;
  confidence : Z;
  analysis_time : string;
  raw_data : list (string * RawEntry)
}.

(** The [THRESHOLDS] dictionary of an instance. *)
Record Thresholds : Type := mkThresholds {
  weak : float;
  medium : float;
  strong : float
}.

Record MADeviationAnalyzer : Type := mkMADeviationAnalyzer {
  threshold : float;
  THRESHOLDS : Thresholds
}.

(** [MADeviationAnalyzer.__init__]. *)
Definition __init__ (threshold : float) : MADeviationAnalyzer :=
  {| threshold := threshold;
     THRESHOLDS := {| weak := threshold;
                      medium := (threshold + 1.0)%float;
                      strong := (threshold + 2.0)%float |} |}.

(** ** The methods that need no library parameter *)

Definition calculate_ma (self : MADeviationAnalyzer) (prices : Series) (period : Z) : float :=
  if len prices <? period then 0.0%float
  else Series_mean (tail period prices).

Definition calculate_deviation (self : MADeviationAnalyzer)
    (current_price ma_value : float) : Result float :=
  if (ma_value =? 0)%float then Ok 0.0%float
  else
    q <- py_truediv (current_price - ma_value)%float ma_value ;;
    Ok (q * 100)%float.

Definition get_signal_strength (self : MADeviationAnalyzer) (deviation_pct : float) : Strength :=
  let abs_dev := PrimFloat.abs deviation_pct in
  if (strong (THRESHOLDS self) <=? abs_dev)%float then STRONG
  else if (medium (THRESHOLDS self) <=? abs_dev)%float then MEDIUM
  else if (weak (THRESHOLDS self) <=? abs_dev)%float then WEAK
  else NONE.

(** The [strength_weights] dictionary of [_calculate_overall_signal]. *)
Definition strength_weights (s : Strength) : Z :=
  match s with
  | STRONG => 3
  | MEDIUM => 2
  | WEAK => 1
  | NONE => 0
  end.

Definition _calculate_overall_signal (self : MADeviationAnalyzer)
    (signals : list DeviationSignal) : Signal * Z :=
  match signals with
  | [] => (NEUTRAL, 0)
  | _ =>
      let buy_count :=
        sum_int (map (fun _ => 1) (filter (fun s => Signal_eqb (signal s) BUY) signals)) in
      let sell_count :=
        sum_int (map (fun _ => 1) (filter (fun s => Signal_eqb (signal s) SELL) signals)) in
      let buy_weight :=
        sum_int (map (fun s => strength_weights (strength s))
                     (filter (fun s => Signal_eqb (signal s) BUY) signals)) in
      let sell_weight :=
        sum_int (map (fun s => strength_weights (strength s))
                     (filter (fun s => Signal_eqb (signal s) SELL) signals)) in
      if (sell_weight <? buy_weight) && (0 <? buy_count) then
        (BUY, Z.min 100 (buy_weight * 20))
      else if (buy_weight <? sell_weight) && (0 <? sell_count) then
        (SELL, Z.min 100 (sell_weight * 20))
      else (NEUTRAL, 0)
  end.

(** ** The methods that format or round floats *)

Section Analyzer.

(** [round(x, 2)]; then [f"{x:.2f}"], [f"{x:+.2f}"] and [str(x)]. *)
Variable round2 : float -> float.
Variable fmt_2f : float -> string.
Variable fmt_plus_2f : float -> string.
Variable str_float : float -> string.

Definition generate_signal (self : MADeviationAnalyzer)
    (deviation_pct : float) (ma_type : string) : DeviationSignal :=
  let strength := get_signal_strength self deviation_pct in
  let '(signal, reason) :=
    if (weak (THRESHOLDS self) <=? deviation_pct)%float then
      (SELL,
       "价格高于 " ++ ma_type ++ " " ++ fmt_2f (PrimFloat.abs deviation_pct)
         ++ "%，" ++ Strength_str strength ++ "超买")
    else if (deviation_pct <=? - weak (THRESHOLDS self))%float then
      (BUY,
       "价格低于 " ++ ma_type ++ " " ++ fmt_2f (PrimFloat.abs deviation_pct)
         ++ "%，" ++ Strength_str strength ++ "超卖")
    else
      (NEUTRAL,
       "价格偏离 " ++ ma_type ++ " " ++ fmt_2f deviation_pct ++ "%，处于正常区间") in
  {| ma_type := ma_type;
     ma_value := 0.0%float;
     current_price := 0.0%float;
     deviation_pct := deviation_pct;
     signal := signal;
     strength := strength;
     reason := reason |}.

(** The two assignments [signal.ma_value = ...] and
    [signal.current_price = ...] of [analyze]. *)
Definition fill_in (s : DeviationSignal) (ma cp : float) : DeviationSignal :=
  {| ma_type := ma_type s;
     ma_value := ma;
     current_price := cp;
     deviation_pct := deviation_pct s;
     signal := signal s;
     strength := strength s;
     reason := reason s |}.

(** The periods [analyze] evaluates, in order. *)
Definition ma_periods : list Z := [5; 10; 20; 60].

(** One iteration of the [for period in ma_periods] loop of [analyze], on
    the state [(signals, raw_data)] the loop updates; a period longer than
    the history is skipped ([continue]).  The keys the loop stores in
    [raw_data] differ from period to period, so storing is appending. *)
Definition analyze_period (self : MADeviationAnalyzer) (df : DataFrame)
    (current_price : float)
    (st : list DeviationSignal * list (string * RawEntry)) (period : Z)
    : Result (list DeviationSignal * list (string * RawEntry)) :=
  let '(signals, raw_data) := st in
  if len df <? period then Ok (signals, raw_data)
  else
    let ma_value := calculate_ma self (close_column df) period in
    deviation_pct <- calculate_deviation self current_price ma_value ;;
    let sig := generate_signal self deviation_pct ("MA" ++ str_int period) in
    let sig := fill_in sig (round2 ma_value) (round2 current_price) in
    Ok (app signals [sig],
        app raw_data
            [("MA" ++ str_int period,
              {| raw_value := round2 ma_value;
                 raw_deviation_pct := round2 deviation_pct;
                 raw_signal := signal sig;
                 raw_strength := strength sig |})]).

Fixpoint analyze_loop (self : MADeviationAnalyzer) (df : DataFrame)
    (current_price : float) (periods : list Z)
    (st : list DeviationSignal * list (string * RawEntry))
    : Result (list DeviationSignal * list (string * RawEntry)) :=
  match periods with
  | [] => Ok st
  | period :: rest =>
      st' <- analyze_period self df current_price st period ;;
      analyze_loop self df current_price rest st'
  end.

(** [analyze]; [now] is what [datetime.now().strftime(...)] returns during
    the call. *)
Definition analyze (self : MADeviationAnalyzer) (df : DataFrame)
    (code name : string) (now : string) : Result DeviationAnalysisResult :=
  let df := sort_values df in
  if len df =? 0 then Raise (ValueError ("股票 " ++ code ++ " 数据为空"))
  else
    last_row <- iloc_last df ;;
    let current_price := close last_row in
    st <- analyze_loop self df current_price ma_periods ([], []) ;;
    let '(signals, raw_data) := st in
    let '(overall_signal, confidence) := _calculate_overall_signal self signals in
    Ok {| code := code;
          name := name;
          result_current_price := round2 current_price;
          signals := signals;
          overall_signal := overall_signal;
          confidence := confidence;
          analysis_time := now;
          raw_data := raw_data |}.

Definition signal_emoji (s : Signal) : string :=
  match s with
  | SELL => "[卖出]"
  | BUY => "[买入]"
  | NEUTRAL => "[中性]"
  end.

(** The line [format_result] appends for one signal. *)
Definition signal_line (sig : DeviationSignal) : string :=
  signal_emoji (signal sig) ++ " **" ++ ma_type sig ++ "**: "
    ++ str_float (ma_value sig) ++ " | 偏离: "
    ++ fmt_plus_2f (deviation_pct sig) ++ "% | " ++ reason sig.

Definition signal_text (s : Signal) : string :=
  match s with
  | BUY => "买入"
  | SELL => "卖出"
  | NEUTRAL => "观望"
  end.

(** The overall-signal line of the report. *)
Definition overall_line (result : DeviationAnalysisResult) : string :=
  signal_emoji (overall_signal result) ++ " **综合信号**: "
    ++ signal_text (overall_signal result)
    ++ " (置信度: " ++ str_int (confidence result) ++ "%)".

(** The lines [format_result] appends after the overall-signal line. *)
Definition advice_lines (s : Signal) : list string :=
  match s with
  | NEUTRAL => []
  | BUY =>
      [""; "**操作建议**:";
       "- 价格跌破均线支撑，出现超卖迹象";
       "- 建议关注反弹机会，可考虑分批买入"]
  | SELL =>
      [""; "**操作建议**:";
       "- 价格突破均线压力，出现超买迹象";
       "- 建议注意回调风险，可考虑分批止盈"]
  end.

(** The list [lines] of [format_result] when it is joined. *)
Definition format_lines (result : DeviationAnalysisResult) : list string :=
  let header :=
    ["## [分析] " ++ name result ++ " (" ++ code result ++ ") 均线偏离分析";
     "";
     "**当前价格**: " ++ str_float (result_current_price result);
     "**分析时间**: " ++ analysis_time result;
     "";
     "### 偏离详情";
     ""] in
  app header
    (app (map signal_line (signals result))
      (app [""; "### 综合判断"; ""]
        (app [overall_line result]
             (advice_lines (overall_signal result))))).

Definition format_result (self : MADeviationAnalyzer)
    (result : DeviationAnalysisResult) : string :=
  join_lines (format_lines result).

(** The signal one iteration appends for [period], given the deviation. *)
Definition period_signal (self : MADeviationAnalyzer) (df : DataFrame)
    (cp : float) (period : Z) (d : float) : DeviationSignal :=
  fill_in (generate_signal self d ("MA" ++ str_int period))
          (round2 (calculate_ma self (close_column df) period))
          (round2 cp).

(** The lines of the report that come before the overall-signal line. *)
Definition report_head (result : DeviationAnalysisResult) : list string :=
  app ["## [分析] " ++ name result ++ " (" ++ code result ++ ") 均线偏离分析";
       "";
       "**当前价格**: " ++ str_float (result_current_price result);
       "**分析时间**: " ++ analysis_time result;
       "";
       "### 偏离详情";
       ""]
    (app (map signal_line (signals result))
         [""; "### 综合判断"; ""]).

End Analyzer.

(** * Definitions used by the statements *)

(** ** The specification's wording *)

(** The aggregation rule in the words of the specification: the weight of a
    side is the sum of the strength weights of the signals classified on
    that side. *)
Fixpoint side_weight (side : Signal) (signals : list DeviationSignal) : Z :=
  match signals with
  | [] => 0
  | s :: rest =>
      (if Signal_eqb (signal s) side then strength_weights (strength s) else 0)
      + side_weight side rest
  end.

Definition has_signal (side : Signal) (signals : list DeviationSignal) : Prop :=
  Exists (fun s => signal s = side) signals.



(** Chronological order of two rows. *)
Definition date_le (a b : Row) : Prop := date a <= date b.

(** Python's comparisons on floats, as propositions. *)
Definition fge (a b : float) : Prop := (b <=? a)%float = true.
Definition fle (a b : float) : Prop := (a <=? b)%float = true.
Definition flt (a b : float) : Prop := (a <? b)%float = true.

(** Neither an infinity nor NaN. *)
Definition finite_float (x : float) : bool :=
  match Prim2SF x with
  | S754_zero _ | S754_finite _ _ _ => true
  | _ => false
  end.

(** ** The order of binary64 numbers

    Every float that is not NaN is given a key in [Z * Z * Z] on which the
    IEEE comparison is the lexicographic order: the first component
    separates negative infinity, negative numbers, zeros, positive numbers
    and positive infinity; the other two order the finite numbers of one
    sign by exponent and mantissa. *)

Definition sf_is_nan (x : spec_float) : bool :=
  match x with
  | S754_nan => true
  | _ => false
  end.

Definition sf_key (x : spec_float) : Z * Z * Z :=
  match x with
  | S754_nan => (0, 0, 0)
  | S754_zero _ => (0, 0, 0)
  | S754_infinity true => (-2, 0, 0)
  | S754_infinity false => (2, 0, 0)
  | S754_finite true m e => (-1, - e, - Zpos m)
  | S754_finite false m e => (1, e, Zpos m)
  end.

Definition key_lt (a b : Z * Z * Z) : Prop :=
  let '(c1, e1, m1) := a in
  let '(c2, e2, m2) := b in
  c1 < c2 \/ (c1 = c2 /\ (e1 < e2 \/ (e1 = e2 /\ m1 < m2))).

Definition key_opp (a : Z * Z * Z) : Z * Z * Z :=
  let '(c, e, m) := a in (- c, - e, - m).

Definition is_nan (x : float) : bool := sf_is_nan (Prim2SF x).
Definition key (x : float) : Z * Z * Z := sf_key (Prim2SF x).

(** ** The value of binary64 numbers

    Every finite binary64 number is an integer multiple of [2 ^ -1074];
    [scale e] is [2 ^ e] in that unit. *)

Definition scale (e : Z) : Z := 2 ^ (e + 1074).

(** The magnitude of a float; an infinity counts as [2 ^ 1024]. *)
Definition sf_mag (x : spec_float) : Z :=
  match x with
  | S754_zero _ | S754_nan => 0
  | S754_infinity _ => scale 1024
  | S754_finite _ m e => Zpos m * scale e
  end.

Definition sf_sign (x : spec_float) : bool :=
  match x with
  | S754_zero s | S754_infinity s | S754_finite s _ _ => s
  | S754_nan => false
  end.

Definition sf_val (x : spec_float) : Z :=
  if sf_sign x then - sf_mag x else sf_mag x.

(** The state of a mantissa [m0] shifted right by [k] bits: the shifted
    mantissa, and the round and sticky bits against the bits shifted out. *)
Definition shr_inv (m0 k : Z) (mrs : shr_record) : Prop :=
  0 <= shr_m mrs /\
  0 <= m0 - shr_m mrs * 2 ^ k < 2 ^ k /\
  (shr_r mrs = true <-> 2 ^ k <= 2 * (m0 - shr_m mrs * 2 ^ k)) /\
  (shr_s mrs = true <->
     m0 - shr_m mrs * 2 ^ k <> 0 /\ 2 * (m0 - shr_m mrs * 2 ^ k) <> 2 ^ k).

(** * Running the analyzer *)

Set Warnings "-inexact-float".

(** ** Implementations of the library parameters *)

(** [round(x, 2)] the way numpy computes it: scale by 100, round to the
    nearest integer (ties to even), scale back. *)
Definition round2_np (x : float) : float :=
  let y := (x * 100)%float in
  let a := abs y in
  let r := if (a <? 0x1p52)%float then ((a + 0x1p52) - 0x1p52)%float else a in
  ((if (y <? 0)%float then - r else r) / 100)%float.

(** [n / d] rounded to the nearest integer, ties to even, for [d > 0]. *)
Definition div_half_even (n d : Z) : Z :=
  let q := n / d in
  match (2 * (n mod d)) ?= d with
  | Lt => q
  | Gt => q + 1
  | Eq => if Z.even q then q else q + 1
  end.

(** [f"{x:.2f}"] (and [f"{x:+.2f}"] when [plus] is set): the exact value
    of the float rounded to two decimals. *)
Definition fmt_fixed2 (plus : bool) (x : float) : string :=
  let sign (s : bool) := if s then "-" else if plus then "+" else "" in
  match Prim2SF x with
  | S754_nan => sign false ++ "nan"
  | S754_infinity s => sign s ++ "inf"
  | S754_zero s => sign s ++ "0.00"
  | S754_finite s m e =>
      let h := if 0 <=? e then Zpos m * 100 * 2 ^ e
               else div_half_even (Zpos m * 100) (2 ^ (- e)) in
      sign s ++ str_int (h / 100) ++ "."
        ++ (if h mod 100 <? 10 then "0" else "") ++ str_int (h mod 100)
  end.

Definition fmt_2f_py : float -> string := fmt_fixed2 false.

(** ** Sample inputs *)

(** [create_test_data]: one row per close, on consecutive days. *)
Definition create_test_data (close_prices : list float) : DataFrame :=
  map (fun ic => mkRow (Z.of_nat (fst ic)) (snd ic))
      (combine (seq 1 (List.length close_prices)) close_prices).

(** The history of [test_case_1]. *)
Definition falling_history : DataFrame :=
  create_test_data (repeat 100%float 20 ++ [101; 100; 99; 98; 97])%list%float.



Definition short_history : DataFrame :=
  create_test_data [10.0; 10.5; 11.0]%float.

Definition sample_signal (sg : Signal) (st : Strength) : DeviationSignal :=
  {| ma_type := "MA5"; ma_value := 100; current_price := 97;
     deviation_pct := -3; signal := sg; strength := st; reason := "" |}.

(** A result whose overall signal is NEUTRAL. *)
Definition neutral_result : DeviationAnalysisResult :=
  {| code := "300750";
     name := "宁德时代";
     result_current_price := 100.3;
     signals := [];
     overall_signal := NEUTRAL;
     confidence := 0;
     analysis_time := "2024-01-05 15:00:00";
     raw_data := [] |}.

(** A float of sign [s] that is not NaN: a zero, an infinity or a finite
    number. *)
Definition signed_as (s : bool) (x : spec_float) : Prop :=
  x = S754_zero s \/ x = S754_infinity s \/ exists m e, x = S754_finite s m e.

(** ** Transformations of signal lists *)

(** The other side of the market. *)
Definition flip_side (side : Signal) : Signal :=
  match side with
  | BUY => SELL
  | SELL => BUY
  | NEUTRAL => NEUTRAL
  end.

(** A signal with its classification moved to the other side. *)
Definition flip_signal (s : DeviationSignal) : DeviationSignal :=
  {| ma_type := ma_type s;
     ma_value := ma_value s;
     current_price := current_price s;
     deviation_pct := deviation_pct s;
     signal := flip_side (signal s);
     strength := strength s;
     reason := reason s |}.

Definition is_classified (s : DeviationSignal) : bool :=
  negb (Signal_eqb (signal s) NEUTRAL).

(** ** What [analyze] stores *)

(** The periods of [ma_periods] that a history of [n] rows is long enough
    for. *)
Definition evaluated_periods (n : Z) : list Z :=
  filter (fun period => period <=? n) ma_periods.

(** The [raw_data] entry that [analyze] stores beside a signal. *)
Definition raw_entry_of (round2 : float -> float) (s : DeviationSignal)
    : string * RawEntry :=
  (ma_type s,
   {| raw_value := ma_value s;
      raw_deviation_pct := round2 (deviation_pct s);
      raw_signal := signal s;
      raw_strength := strength s |}).

(** * The reports over many results *)

(** [[r for r in results if r.overall_signal == side]]. *)
Definition with_overall (side : Signal)
    (results : list DeviationAnalysisResult) : list DeviationAnalysisResult :=
  filter (fun r => Signal_eqb (overall_signal r) side) results.

(** [sorted(results, key=lambda x: x.confidence, reverse=True)]: the
    results by falling confidence; Python's sort is stable, also with
    [reverse=True], so results of equal confidence keep their order. *)
Fixpoint insert_by_confidence (r : DeviationAnalysisResult)
    (sorted : list DeviationAnalysisResult) : list DeviationAnalysisResult :=
  match sorted with
  | [] => [r]
  | r' :: rest =>
      if confidence r' <? confidence r then r :: r' :: rest
      else r' :: insert_by_confidence r rest
  end.

Definition sorted_by_confidence (results : list DeviationAnalysisResult)
    : list DeviationAnalysisResult :=
  fold_left (fun acc r => insert_by_confidence r acc) results [].

(** Python's [max(items, key=key)] with float keys: the first item is
    replaced whenever a later one has a greater key; [ValueError] on an
    empty list (the wording of the message depends on the Python
    version). *)
Definition py_max_by {A : Type} (key : A -> float) (items : list A) : Result A :=
  match items with
  | [] => Raise (ValueError "max() arg is an empty sequence")
  | x :: rest =>
      Ok (fold_left (fun best y => if (key best <? key y)%float then y else best)
                    rest x)
  end.

(** The key and the [max(...)] expression of [print_summary_report]:
    [max(r.signals, key=lambda s: abs(s.deviation_pct) if s.signal == side else 0)]. *)
Definition strongest_key (side : Signal) (s : DeviationSignal) : float :=
  if Signal_eqb (signal s) side then PrimFloat.abs (deviation_pct s)
  else 0%float.

Definition strongest (side : Signal) (signals : list DeviationSignal)
    : Result DeviationSignal :=
  py_max_by (strongest_key side) signals.

Section Reports.

(** [f"{x:+.2f}"] and [str(x)] for a float. *)
Variable fmt_plus_2f : float -> string.
Variable str_float : float -> string.

(** The lines [generate_ma_deviation_report] appends for one result of
    the buy section. *)
Definition buy_entry (r : DeviationAnalysisResult) : list string :=
  app ["### 📈 " ++ name r ++ " (" ++ code r ++ ")";
       "";
       "**当前价格**: " ++ str_float (result_current_price r)
         ++ " | **置信度**: " ++ str_int (confidence r) ++ "%";
       ""]
    (app (map (fun sig =>
                 "- **" ++ ma_type sig ++ "**: " ++ str_float (ma_value sig)
                   ++ " | 偏离 " ++ fmt_plus_2f (deviation_pct sig) ++ "% | "
                   ++ Strength_str (strength sig) ++ "超卖")
              (filter (fun sig => Signal_eqb (signal sig) BUY) (signals r)))
         ["";
          "💡 **操作建议**: 价格跌破均线支撑，出现超卖迹象，可关注反弹机会";
          "";
          "---";
          ""]).

(** The same for one result of the sell section. *)
Definition sell_entry (r : DeviationAnalysisResult) : list string :=
  app ["### 📉 " ++ name r ++ " (" ++ code r ++ ")";
       "";
       "**当前价格**: " ++ str_float (result_current_price r)
         ++ " | **置信度**: " ++ str_int (confidence r) ++ "%";
       ""]
    (app (map (fun sig =>
                 "- **" ++ ma_type sig ++ "**: " ++ str_float (ma_value sig)
                   ++ " | 偏离 " ++ fmt_plus_2f (deviation_pct sig) ++ "% | "
                   ++ Strength_str (strength sig) ++ "超买")
              (filter (fun sig => Signal_eqb (signal sig) SELL) (signals r)))
         ["";
          "⚠️ **风险提示**: 价格突破均线压力，出现超买迹象，注意回调风险";
          "";
          "---";
          ""]).

(** The line of one result of the neutral section. *)
Definition neutral_entry (r : DeviationAnalysisResult) : string :=
  "- **" ++ name r ++ " (" ++ code r ++ ")**: 当前价 "
    ++ str_float (result_current_price r) ++ "，偏离在正常区间".

Definition report_header (results : list DeviationAnalysisResult)
    (report_date report_time : string) : list string :=
  ["# 📊 " ++ report_date ++ " 均线偏离分析报告";
   "";
   "> 共分析 **" ++ str_int (len results) ++ "** 只股票 | 报告生成时间："
     ++ report_time;
   "";
   "---";
   "";
   "## 📈 操作建议汇总";
   "";
   "| 指标 | 数值 |";
   "|------|------|";
   "| 🟢 买入信号 | **" ++ str_int (len (with_overall BUY results)) ++ "** 只 |";
   "| 🔴 卖出信号 | **" ++ str_int (len (with_overall SELL results)) ++ "** 只 |";
   "| ⚪ 中性信号 | **" ++ str_int (len (with_overall NEUTRAL results)) ++ "** 只 |";
   "";
   "---";
   ""].

Definition buy_section (results : list DeviationAnalysisResult) : list string :=
  match with_overall BUY results with
  | [] => []
  | buy_signals =>
      app ["## 🟢 买入机会（超卖信号）"; ""]
          (flat_map buy_entry (sorted_by_confidence buy_signals))
  end.

Definition sell_section (results : list DeviationAnalysisResult) : list string :=
  match with_overall SELL results with
  | [] => []
  | sell_signals =>
      app ["## 🔴 卖出提示（超买信号）"; ""]
          (flat_map sell_entry (sorted_by_confidence sell_signals))
  end.

Definition neutral_section (results : list DeviationAnalysisResult) : list string :=
  match with_overall NEUTRAL results with
  | [] => []
  | neutral_signals =>
      app ["## ⚪ 中性观望"; ""]
          (app (map neutral_entry neutral_signals) [""; "---"; ""])
  end.

Definition report_footer (report_stamp : string) : list string :=
  ["";
   "## 📝 说明";
   "";
   "**偏离度计算**: (当前价 - 均线) / 均线 × 100%";
   "";
   "**信号强度**:";
   "- 弱: 偏离 1.5% - 2.5%";
   "- 中: 偏离 2.5% - 3.5%";
   "- 强: 偏离 > 3.5%";
   "";
   "⚠️ **风险提示**: 本分析仅供参考，不构成投资建议";
   "";
   "*报告生成时间：" ++ report_stamp ++ "*"].

(** The list [lines] of [generate_ma_deviation_report] when it is joined;
    [report_date], [report_time] and [report_stamp] are the three readings
    of the clock the function formats. *)
Definition report_lines (results : list DeviationAnalysisResult)
    (report_date report_time report_stamp : string) : list string :=
  app (report_header results report_date report_time)
    (app (buy_section results)
      (app (sell_section results)
        (app (neutral_section results)
             (report_footer report_stamp)))).

Definition generate_ma_deviation_report (results : list DeviationAnalysisResult)
    (report_date report_time report_stamp : string) : string :=
  join_lines (report_lines results report_date report_time report_stamp).

End Reports.

(** ** The batch run of [ma_deviation_real_example.py] *)

Section Batch.

Variable round2 : float -> float.
Variable fmt_2f : float -> string.

(** What [get_real_stock_data(code)] returns at the [i]-th iteration
    ([None] or a frame), and what the clock reads during the call of
    [analyze] in that iteration. *)
Variable get_real_stock_data : nat -> string -> option DataFrame.
Variable now_at : nat -> string.

(** The loop [for i, code in enumerate(stock_list, 1)] on the list
    [results] it appends to; what the loop prints is left out.  An
    iteration is left by [continue] when there is no data, and the
    [except] clause drops a stock whose analysis raises. *)
Fixpoint batch_loop (analyzer : MADeviationAnalyzer) (i : nat)
    (stock_list : list string) (results : list DeviationAnalysisResult)
    : list DeviationAnalysisResult :=
  match stock_list with
  | [] => results
  | stock_code :: rest =>
      match get_real_stock_data i stock_code with
      | None => batch_loop analyzer (S i) rest results
      | Some df =>
          if len df =? 0 then batch_loop analyzer (S i) rest results
          else
            match analyze round2 fmt_2f analyzer df stock_code
                          ("股票" ++ stock_code) (now_at i) with
            | Ok result => batch_loop analyzer (S i) rest (app results [result])
            | Raise _ => batch_loop analyzer (S i) rest results
            end
      end
  end.

(** [batch_analyze_with_real_data]: the list [results] it hands to
    [print_summary_report] (nothing is handed over when the configured
    stock list is empty). *)
Definition batch_analyze_with_real_data (threshold : float)
    (stock_list : list string) : option (list DeviationAnalysisResult) :=
  match stock_list with
  | [] => None
  | _ => Some (batch_loop (__init__ threshold) 1 stock_list [])
  end.

(** The stocks of the list for which data arrives, with their position. *)
Definition with_data (i : nat) (stock_list : list string) : list string :=
  map snd
      (filter (fun ic : nat * string =>
                 match get_real_stock_data (fst ic) (snd ic) with
                 | Some df => negb (len df =? 0)
                 | None => false
                 end)
              (combine (seq i (List.length stock_list)) stock_list)).

End Batch.


(** Results in the order of falling confidence. *)
Definition confidence_ge (a b : DeviationAnalysisResult) : Prop :=
  confidence b <= confidence a.

(** A data source that has the falling history for one stock and nothing
    for the others, and a clock that stands still. *)
Definition sample_provider (i : nat) (stock_code : string) : option DataFrame :=
  if String.eqb stock_code "600519" then Some falling_history else None.

Definition sample_clock (i : nat) : string := "2024-01-05 15:00:00".

(** A history whose latest close is NaN. *)
Definition nan_last_history : DataFrame :=
  create_test_data [100; 100; 100; 100; 100; nan]%float.

(** A history whose rows stand in strictly ascending date order. *)
Fixpoint dates_ascend (df : DataFrame) : bool :=
  match df with
  | [] => true
  | r :: rest =>
      match rest with
      | [] => true
      | r' :: _ => (date r <? date r') && dates_ascend rest
      end
  end.

(** Sixty-five flat closes followed by the falling week of
    [falling_history]. *)
Definition long_history : DataFrame :=
  create_test_data (repeat 100%float 65 ++ [101; 100; 99; 98; 97])%list%float.

(** * Properties *)

(** ** Aggregation of the per-period signals *)

Lemma Signal_eqb_eq (a b : Signal) : Signal_eqb a b = true <-> a = b.
Proof. destruct a, b; simpl; split; congruence. Qed.

Lemma sum_int_from (l : list Z) (a : Z) : fold_left Z.add l a = a + sum_int l.
Proof.
  unfold sum_int. revert a.
  induction l as [|x l IH]; intros a; simpl.
  - lia.
  - rewrite IH, (IH x). lia.
Qed.

Lemma sum_int_cons (x : Z) (l : list Z) : sum_int (x :: l) = x + sum_int l.
Proof. unfold sum_int at 1. simpl. apply sum_int_from. Qed.

Lemma sum_weights_side (side : Signal) (signals : list DeviationSignal) :
  sum_int (map (fun s => strength_weights (strength s))
               (filter (fun s => Signal_eqb (signal s) side) signals))
  = side_weight side signals.
Proof.
  induction signals as [|s rest IH]; simpl.
  - reflexivity.
  - destruct (Signal_eqb (signal s) side); simpl.
    + rewrite sum_int_cons, IH. reflexivity.
    + rewrite IH. reflexivity.
Qed.

Lemma sum_ones_nonneg (signals : list DeviationSignal) :
  0 <= sum_int (map (fun _ : DeviationSignal => 1) signals).
Proof.
  induction signals as [|s rest IH]; simpl.
  - unfold sum_int. simpl. lia.
  - rewrite sum_int_cons. lia.
Qed.

Lemma count_side_pos (side : Signal) (signals : list DeviationSignal) :
  0 < sum_int (map (fun _ => 1)
                   (filter (fun s => Signal_eqb (signal s) side) signals))
  <-> has_signal side signals.
Proof.
  unfold has_signal.
  induction signals as [|s rest IH]; simpl.
  - unfold sum_int. simpl. split; [lia | intros H; inversion H].
  - destruct (Signal_eqb (signal s) side) eqn:E; simpl.
    + rewrite sum_int_cons. split.
      * intros _. apply Exists_cons_hd. now apply Signal_eqb_eq.
      * intros _.
        pose proof (sum_ones_nonneg
                      (filter (fun s => Signal_eqb (signal s) side) rest)).
        lia.
    + rewrite IH. split.
      * intros H. now apply Exists_cons_tl.
      * intros H. apply Exists_cons in H. destruct H as [Hs | Ht].
        -- apply Signal_eqb_eq in Hs. congruence.
        -- exact Ht.
Qed.

Lemma strength_weights_nonneg (s : Strength) : 0 <= strength_weights s.
Proof. destruct s; simpl; lia. Qed.

Lemma side_weight_nonneg (side : Signal) (signals : list DeviationSignal) :
  0 <= side_weight side signals.
Proof.
  induction signals as [|s rest IH]; simpl.
  - lia.
  - pose proof (strength_weights_nonneg (strength s)).
    destruct (Signal_eqb (signal s) side); lia.
Qed.

(** The result of [_calculate_overall_signal] as one case analysis on the
    two side weights. *)
Lemma overall_signal_cases (self : MADeviationAnalyzer)
    (signals : list DeviationSignal) :
  let buy_weight := side_weight BUY signals in
  let sell_weight := side_weight SELL signals in
  _calculate_overall_signal self signals =
    if (sell_weight <? buy_weight) && (0 <? sum_int (map (fun _ => 1)
          (filter (fun s => Signal_eqb (signal s) BUY) signals)))
    then (BUY, Z.min 100 (buy_weight * 20))
    else if (buy_weight <? sell_weight) && (0 <? sum_int (map (fun _ => 1)
          (filter (fun s => Signal_eqb (signal s) SELL) signals)))
    then (SELL, Z.min 100 (sell_weight * 20))
    else (NEUTRAL, 0).
Proof.
  intros buy_weight sell_weight. subst buy_weight sell_weight.
  destruct signals as [|s rest].
  - reflexivity.
  - unfold _calculate_overall_signal.
    rewrite !sum_weights_side. reflexivity.
Qed.

(** C1: [_calculate_overall_signal] sums the strength weights (NONE=0,
    WEAK=1, MEDIUM=2, STRONG=3) of the BUY signals and of the SELL signals;
    it returns (BUY, min(100, buy_weight*20)) when the buy weight is larger
    and a BUY signal exists, (SELL, min(100, sell_weight*20)) when the sell
    weight is larger and a SELL signal exists, and (NEUTRAL, 0) otherwise,
    in particular on every tie and on the empty list. *)
Theorem overall_signal_rule (self : MADeviationAnalyzer)
    (signals : list DeviationSignal) :
  let buy_weight := side_weight BUY signals in
  let sell_weight := side_weight SELL signals in
  let result := _calculate_overall_signal self signals in
  (strength_weights NONE = 0 /\ strength_weights WEAK = 1 /\
   strength_weights MEDIUM = 2 /\ strength_weights STRONG = 3) /\
  (buy_weight > sell_weight -> has_signal BUY signals ->
     result = (BUY, Z.min 100 (buy_weight * 20))) /\
  (sell_weight > buy_weight -> has_signal SELL signals ->
     result = (SELL, Z.min 100 (sell_weight * 20))) /\
  (~ (buy_weight > sell_weight /\ has_signal BUY signals) ->
   ~ (sell_weight > buy_weight /\ has_signal SELL signals) ->
     result = (NEUTRAL, 0)) /\
  (buy_weight = sell_weight -> result = (NEUTRAL, 0)) /\
  (signals = [] -> result = (NEUTRAL, 0)).
Proof.
  intros buy_weight sell_weight result.
  assert (Hcases := overall_signal_cases self signals).
  cbv zeta in Hcases. fold buy_weight sell_weight result in Hcases.
  pose proof (count_side_pos BUY signals) as Hbuy.
  pose proof (count_side_pos SELL signals) as Hsell.
  set (buy_count := sum_int (map (fun _ => 1)
         (filter (fun s => Signal_eqb (signal s) BUY) signals))) in *.
  set (sell_count := sum_int (map (fun _ => 1)
         (filter (fun s => Signal_eqb (signal s) SELL) signals))) in *.
  split; [repeat split |].
  rewrite Hcases. clear Hcases.
  destruct (Z.ltb_spec sell_weight buy_weight) as [Hlt1 | Hge1];
    destruct (Z.ltb_spec buy_weight sell_weight) as [Hlt2 | Hge2];
    destruct (Z.ltb_spec 0 buy_count) as [Hb | Hb];
    destruct (Z.ltb_spec 0 sell_count) as [Hs | Hs];
    simpl; repeat split; intros;
    try reflexivity; try lia;
    try (exfalso; lia);
    try (exfalso; apply Hbuy in H0; lia);
    try (exfalso; apply Hsell in H0; lia);
    try (exfalso; apply H; split; [lia | apply Hbuy; lia]);
    try (exfalso; apply H0; split; [lia | apply Hsell; lia]);
    try (exfalso; subst signals; cbv in Hb, Hs; first [discriminate Hb | discriminate Hs]).
Qed.

(** ** Order facts about binary64 comparisons *)

Lemma SFltb_key (x y : spec_float) :
  SFltb x y = true <->
  sf_is_nan x = false /\ sf_is_nan y = false /\ key_lt (sf_key x) (sf_key y).
Proof.
  unfold SFltb.
  destruct x as [sx | sx | | sx mx ex]; destruct y as [sy | sy | | sy my ey];
    try destruct sx; try destruct sy; simpl;
    try (split; [discriminate | intros (? & ? & ?); first [discriminate | lia]]);
    try (split; [intros _; repeat split; lia | reflexivity]).
  - destruct (Z.compare_spec ex ey) as [He | He | He];
      [ change (Pos.compare_cont Eq mx my) with (Pos.compare mx my);
        destruct (Pos.compare_spec mx my) as [Hm | Hm | Hm] | | ];
      simpl; split; try discriminate; try reflexivity;
      try (intros _; repeat split; lia);
      try (intros (_ & _ & H); exfalso; subst; lia).
  - destruct (Z.compare_spec ex ey) as [He | He | He];
      [ change (Pos.compare_cont Eq mx my) with (Pos.compare mx my);
        destruct (Pos.compare_spec mx my) as [Hm | Hm | Hm] | | ];
      simpl; split; try discriminate; try reflexivity;
      try (intros _; repeat split; lia);
      try (intros (_ & _ & H); exfalso; subst; lia).
Qed.

Lemma SFleb_key (x y : spec_float) :
  SFleb x y = true <->
  sf_is_nan x = false /\ sf_is_nan y = false /\ ~ key_lt (sf_key y) (sf_key x).
Proof.
  unfold SFleb.
  destruct x as [sx | sx | | sx mx ex]; destruct y as [sy | sy | | sy my ey];
    try destruct sx; try destruct sy; simpl;
    try (split; [discriminate | intros (? & ? & ?); first [discriminate | lia]]);
    try (split; [intros _; repeat split; lia | reflexivity]).
  - destruct (Z.compare_spec ex ey) as [He | He | He];
      [ change (Pos.compare_cont Eq mx my) with (Pos.compare mx my);
        destruct (Pos.compare_spec mx my) as [Hm | Hm | Hm] | | ];
      simpl; split; try discriminate; try reflexivity;
      try (intros _; repeat split; lia);
      try (intros (_ & _ & H); exfalso; subst; lia).
  - destruct (Z.compare_spec ex ey) as [He | He | He];
      [ change (Pos.compare_cont Eq mx my) with (Pos.compare mx my);
        destruct (Pos.compare_spec mx my) as [Hm | Hm | Hm] | | ];
      simpl; split; try discriminate; try reflexivity;
      try (intros _; repeat split; lia);
      try (intros (_ & _ & H); exfalso; subst; lia).
Qed.

Lemma ltb_key (x y : float) :
  (x <? y)%float = true <->
  is_nan x = false /\ is_nan y = false /\ key_lt (key x) (key y).
Proof. rewrite FloatAxioms.ltb_spec. apply SFltb_key. Qed.

Lemma leb_key (x y : float) :
  (x <=? y)%float = true <->
  is_nan x = false /\ is_nan y = false /\ ~ key_lt (key y) (key x).
Proof. rewrite FloatAxioms.leb_spec. apply SFleb_key. Qed.

Lemma key_of_opp (x : float) :
  key (- x) = key_opp (key x) /\ is_nan (- x) = is_nan x.
Proof.
  unfold key, is_nan. rewrite FloatAxioms.opp_spec.
  destruct (Prim2SF x) as [[|] | [|] | | [|] m e]; simpl; split;
    try reflexivity; repeat f_equal; lia.
Qed.

Lemma key_of_abs (x : float) :
  ((key (abs x) = key x /\ 0 <= fst (fst (key x)))
   \/ (key (abs x) = key_opp (key x) /\ fst (fst (key x)) < 0))
  /\ is_nan (abs x) = is_nan x.
Proof.
  unfold key, is_nan. rewrite FloatAxioms.abs_spec.
  destruct (Prim2SF x) as [[|] | [|] | | [|] m e]; simpl; split;
    try reflexivity;
    first [ left; split; [reflexivity | lia]
          | right; split; [ | lia]; first [reflexivity | repeat f_equal; lia] ].
Qed.

Lemma key_zero_class (x : float) :
  fst (fst (key x)) = 0 -> key x = (0, 0, 0).
Proof.
  unfold key.
  destruct (Prim2SF x) as [[|] | [|] | | [|] m e]; simpl;
    intros H; try reflexivity; discriminate H.
Qed.

(** Breaks every key in the context into its three components. *)
Ltac split_keys :=
  repeat match goal with
         | k : (Z * Z * Z)%type |- _ => destruct k as [[? ?] ?]
         end;
  unfold key_lt, key_opp in *; simpl fst in *; simpl snd in *.

(** [x < y] excludes [y <= x]. *)
Lemma ltb_not_leb (x y : float) :
  (x <? y)%float = true -> (y <=? x)%float = false.
Proof.
  intros Hlt. apply not_true_is_false. intros Hle.
  apply ltb_key in Hlt. apply leb_key in Hle.
  destruct Hlt as (_ & _ & Hlt). destruct Hle as (_ & _ & Hle).
  contradiction.
Qed.

(** [x < a] and [a <= b] exclude [b <= x]. *)
Lemma ltb_leb_not_leb (x a b : float) :
  (x <? a)%float = true -> (a <=? b)%float = true -> (b <=? x)%float = false.
Proof.
  intros Hlt Hab. apply not_true_is_false. intros Hbx.
  apply ltb_key in Hlt. apply leb_key in Hab. apply leb_key in Hbx.
  destruct Hlt as (_ & _ & Hlt). destruct Hab as (_ & _ & Hab).
  destruct Hbx as (_ & _ & Hbx).
  remember (key x) as kx. remember (key a) as ka. remember (key b) as kb.
  clear Heqkx Heqka Heqkb.
  split_keys. lia.
Qed.

(** [w <= d] gives [w <= |d|]. *)
Lemma leb_abs (w d : float) :
  (w <=? d)%float = true -> (w <=? abs d)%float = true.
Proof.
  intros H. apply leb_key in H. destruct H as (Hw & Hd & H).
  apply leb_key.
  destruct (key_of_abs d) as [Hk Hn].
  rewrite Hn. repeat split; try assumption.
  destruct Hk as [[Hk _] | [Hk Hneg]]; rewrite Hk; [exact H |].
  remember (key d) as kd. remember (key w) as kw.
  clear Heqkd Heqkw Hk.
  split_keys. lia.
Qed.

(** [d <= -w] gives [w <= |d|]. *)
Lemma leb_opp_abs (w d : float) :
  (d <=? - w)%float = true -> (w <=? abs d)%float = true.
Proof.
  intros H. apply leb_key in H. destruct H as (Hd & Hw & H).
  destruct (key_of_opp w) as [Hko Hno]. rewrite Hno in Hw. rewrite Hko in H.
  apply leb_key.
  destruct (key_of_abs d) as [Hk Hn].
  rewrite Hn. repeat split; try assumption.
  pose proof (key_zero_class d) as Hzd.
  pose proof (key_zero_class w) as Hzw.
  destruct Hk as [[Hk Hpos] | [Hk Hneg]]; rewrite Hk; clear Hk Hko.
  - remember (key d) as kd. remember (key w) as kw.
    clear Heqkd Heqkw.
    destruct kd as [[cd ed] md]. destruct kw as [[cw ew] mw].
    unfold key_lt, key_opp in *. simpl fst in *.
    intros Hlt.
    assert (Hc : cw = 0 /\ cd = 0) by lia.
    destruct Hc as [Hcw Hcd].
    specialize (Hzd Hcd). specialize (Hzw Hcw).
    inversion Hzd. inversion Hzw. subst. lia.
  - remember (key d) as kd. remember (key w) as kw.
    clear Heqkd Heqkw Hzd Hzw.
    split_keys. lia.
Qed.

(** With a positive [t], [d <= -t] excludes [t <= d]. *)
Lemma leb_opp_not_leb (t d : float) :
  (0 <? t)%float = true -> (d <=? - t)%float = true -> (t <=? d)%float = false.
Proof.
  intros Hpos H. apply not_true_is_false. intros Hle.
  apply ltb_key in Hpos. apply leb_key in H. apply leb_key in Hle.
  destruct Hpos as (_ & _ & Hpos). destruct H as (_ & _ & H).
  destruct Hle as (_ & _ & Hle).
  destruct (key_of_opp t) as [Hko _]. rewrite Hko in H.
  change (key 0) with (0, 0, 0) in Hpos.
  remember (key d) as kd. remember (key t) as kt.
  clear Heqkd Heqkt Hko.
  split_keys. lia.
Qed.

Lemma leb_refl (x : float) : is_nan x = false -> (x <=? x)%float = true.
Proof.
  intros Hn. apply leb_key. repeat split; try assumption.
  remember (key x) as k. clear Heqk. split_keys. lia.
Qed.

(** ** Rounding of binary64 addition *)

Lemma scale_pos (e : Z) : -1074 <= e -> 0 < scale e.
Proof. intros H. unfold scale. apply Z.pow_pos_nonneg; lia. Qed.

Lemma scale_add (e k : Z) : -1074 <= e -> 0 <= k -> scale (e + k) = 2 ^ k * scale e.
Proof.
  intros He Hk. unfold scale.
  replace (e + k + 1074) with (k + (e + 1074)) by lia.
  apply Z.pow_add_r; lia.
Qed.

Lemma scale_succ (e : Z) : -1074 <= e -> scale (e + 1) = 2 * scale e.
Proof. intros He. rewrite scale_add by lia. reflexivity. Qed.

Lemma scale_le (e1 e2 : Z) : -1074 <= e1 -> e1 <= e2 -> scale e1 <= scale e2.
Proof. intros H1 H2. unfold scale. apply Z.pow_le_mono_r; lia. Qed.

Lemma digits2_bounds (m : positive) :
  2 ^ (Zpos (digits2_pos m) - 1) <= Zpos m < 2 ^ Zpos (digits2_pos m).
Proof.
  induction m as [m IH | m IH |]; cbn [digits2_pos].
  - rewrite Pos2Z.inj_succ.
    replace (Z.succ (Zpos (digits2_pos m)) - 1) with (Z.succ (Zpos (digits2_pos m) - 1)) by lia.
    rewrite !Z.pow_succ_r by lia. lia.
  - rewrite Pos2Z.inj_succ.
    replace (Z.succ (Zpos (digits2_pos m)) - 1) with (Z.succ (Zpos (digits2_pos m) - 1)) by lia.
    rewrite !Z.pow_succ_r by lia. lia.
  - cbn. lia.
Qed.

Lemma digits2_unique (m : positive) (k : Z) :
  2 ^ (k - 1) <= Zpos m < 2 ^ k -> 1 <= k -> Zpos (digits2_pos m) = k.
Proof.
  intros [Hlo Hhi] Hk.
  destruct (digits2_bounds m) as [Dlo Dhi].
  destruct (Z.lt_trichotomy (Zpos (digits2_pos m)) k) as [Hlt | [Heq | Hgt]];
    [| exact Heq |].
  - assert (2 ^ Zpos (digits2_pos m) <= 2 ^ (k - 1))
      by (apply Z.pow_le_mono_r; lia).
    lia.
  - assert (2 ^ k <= 2 ^ (Zpos (digits2_pos m) - 1))
      by (apply Z.pow_le_mono_r; lia).
    lia.
Qed.

Lemma shr_inv_0 (m0 : Z) :
  0 <= m0 -> shr_inv m0 0 (Build_shr_record m0 false false).
Proof.
  intros H. unfold shr_inv. cbn [shr_m shr_r shr_s].
  rewrite Z.pow_0_r. repeat split; intros; try lia; try discriminate.
Qed.

Lemma shr_inv_step (m0 k : Z) (mrs : shr_record) :
  0 <= k -> shr_inv m0 k mrs -> shr_inv m0 (k + 1) (shr_1 mrs).
Proof.
  intros Hk. destruct mrs as [m r s]. unfold shr_inv. cbn [shr_m shr_r shr_s].
  rewrite Z.pow_add_r, Z.pow_1_r by lia.
  assert (HP : 0 < 2 ^ k) by (apply Z.pow_pos_nonneg; lia).
  generalize dependent (2 ^ k). intros P HP (Hm & HR & Hr & Hs).
  destruct m as [| p | p]; [| destruct p as [p | p |] |]; cbn [shr_1 shr_m shr_r shr_s];
    try lia;
    destruct r, s; cbn [orb];
    repeat split; intros; try discriminate; try reflexivity; try lia.
Qed.

Lemma shr_inv_iter (m0 : Z) (p : positive) :
  forall k mrs, 0 <= k -> shr_inv m0 k mrs ->
  shr_inv m0 (k + Zpos p) (iter_pos shr_1 p mrs).
Proof.
  induction p as [p IH | p IH |]; intros k mrs Hk Hinv; cbn [iter_pos].
  - replace (k + Zpos p~1) with (k + 1 + Zpos p + Zpos p) by lia.
    apply IH; [lia |]. apply IH; [lia |]. now apply shr_inv_step.
  - replace (k + Zpos p~0) with (k + Zpos p + Zpos p) by lia.
    apply IH; [lia |]. now apply IH.
  - now apply shr_inv_step.
Qed.

(** What the location of a shifted record says about the bits shifted out. *)
Lemma loc_of_shr_inv (m0 k : Z) (mrs : shr_record) :
  shr_inv m0 k mrs ->
  match loc_of_shr_record mrs with
  | loc_Exact => m0 - shr_m mrs * 2 ^ k = 0
  | loc_Inexact Lt =>
      0 < m0 - shr_m mrs * 2 ^ k /\ 2 * (m0 - shr_m mrs * 2 ^ k) < 2 ^ k
  | loc_Inexact Eq => 2 * (m0 - shr_m mrs * 2 ^ k) = 2 ^ k
  | loc_Inexact Gt => 2 ^ k < 2 * (m0 - shr_m mrs * 2 ^ k)
  end.
Proof.
  destruct mrs as [m r s]. unfold shr_inv. cbn [shr_m shr_r shr_s].
  generalize (2 ^ k). intros P (Hm & HR & Hr & Hs).
  destruct r, s; cbn [loc_of_shr_record]; lia.
Qed.

(** Rounding the shifted mantissa gives a nearest multiple of [2 ^ k]. *)
Lemma round_nearest (m0 k : Z) (mrs : shr_record) :
  0 <= k -> shr_inv m0 k mrs ->
  let m3 := round_nearest_even (shr_m mrs) (loc_of_shr_record mrs) in
  shr_m mrs <= m3 <= shr_m mrs + 1 /\
  forall j, Z.abs (m3 * 2 ^ k - m0) <= Z.abs (j * 2 ^ k - m0).
Proof.
  intros Hk Hinv m3.
  pose proof (loc_of_shr_inv m0 k mrs Hinv) as Hloc.
  destruct Hinv as (Hm & HR & _ & _).
  assert (HP : 0 < 2 ^ k) by (apply Z.pow_pos_nonneg; lia).
  subst m3. revert Hloc HR HP.
  generalize (2 ^ k). generalize (shr_m mrs).
  intros m P Hloc HR HP.
  destruct (loc_of_shr_record mrs) as [| [ | | ]]; cbn [round_nearest_even];
    try destruct (Z.even m); (split; [lia |]); intros j;
    destruct (Z_le_gt_dec j m); nia.
Qed.

Lemma fexp_eq (x : Z) : fexp prec emax x = Z.max (x - 53) (-1074).
Proof. reflexivity. Qed.

Lemma valid_finite (s : bool) (m : positive) (e : Z) :
  valid_binary (S754_finite s m e) = true ->
  -1074 <= e <= 971 /\ Zpos m < 2 ^ 53 /\ (-1074 < e -> 2 ^ 52 <= Zpos m).
Proof.
  cbn [SpecFloat.valid_binary]. unfold bounded, canonical_mantissa.
  rewrite fexp_eq. intros H. apply andb_prop in H. destruct H as [Hc He].
  apply Z.eqb_eq in Hc. apply Z.leb_le in He.
  change (emax - prec) with 971 in He.
  destruct (digits2_bounds m) as [Dlo Dhi].
  assert (Hd : Zpos (digits2_pos m) <= 53) by lia.
  split; [lia |]. split.
  - assert (2 ^ Zpos (digits2_pos m) <= 2 ^ 53) by (apply Z.pow_le_mono_r; lia).
    lia.
  - intros Hgt.
    assert (Hd53 : Zpos (digits2_pos m) = 53) by lia.
    rewrite Hd53 in Dlo. exact Dlo.
Qed.

Lemma scale_1024 : scale 1024 = 2 ^ 53 * scale 971.
Proof. change 1024 with (971 + 53). apply scale_add; lia. Qed.

Lemma sf_mag_nonneg (z : spec_float) :
  valid_binary z = true -> 0 <= sf_mag z.
Proof.
  intros Hv. destruct z as [s | s | | s m e]; cbn [sf_mag]; try lia.
  - pose proof (scale_pos 1024). lia.
  - apply valid_finite in Hv. pose proof (scale_pos e). nia.
Qed.

Lemma sf_mag_bound (z : spec_float) :
  valid_binary z = true -> sf_mag z <= scale 1024.
Proof.
  intros Hv. pose proof (scale_pos 1024) as H1024.
  destruct z as [s | s | | s m e]; cbn [sf_mag]; try lia.
  apply valid_finite in Hv. destruct Hv as (He & Hm & _).
  rewrite scale_1024.
  pose proof (scale_le e 971). pose proof (scale_pos e). nia.
Qed.

Lemma abs_le_scale (a b s : Z) :
  0 <= s -> Z.abs a <= Z.abs b -> Z.abs (a * s) <= Z.abs (b * s).
Proof.
  intros Hs H. rewrite !Z.abs_mul, (Z.abs_eq s) by lia.
  apply Z.mul_le_mono_nonneg_r; lia.
Qed.

(** A multiple [m3 * G] of the grid step [G = scale e0] that is nearest to
    [X] among the multiples of [G] is nearest to [X] among all the
    magnitudes of floats, when the multiple of [G] just below [X] has a
    full mantissa. *)
Lemma grid_nearest (e0 X m2 m3 : Z) (z : spec_float) :
  -1074 <= e0 -> 2 ^ 52 <= m2 -> m2 * scale e0 <= X ->
  (forall j, Z.abs (m3 * scale e0 - X) <= Z.abs (j * scale e0 - X)) ->
  valid_binary z = true ->
  (forall s, z = S754_infinity s -> e0 <= 971) ->
  Z.abs (m3 * scale e0 - X) <= Z.abs (sf_mag z - X).
Proof.
  intros He0 Hm2 Hfloor Hnear Hv Hinf.
  pose proof (scale_pos e0 He0) as HG.
  destruct z as [s | s | | s m e]; cbn [sf_mag].
  - specialize (Hnear 0). now rewrite Z.mul_0_l in Hnear.
  - specialize (Hinf s eq_refl).
    rewrite scale_1024.
    replace 971 with (e0 + (971 - e0)) by lia.
    rewrite scale_add by lia.
    specialize (Hnear (2 ^ 53 * 2 ^ (971 - e0))).
    now rewrite <- Z.mul_assoc in Hnear.
  - specialize (Hnear 0). now rewrite Z.mul_0_l in Hnear.
  - apply valid_finite in Hv. destruct Hv as (He & Hm & _).
    destruct (Z_le_gt_dec e0 e) as [Hge | Hlt].
    + replace e with (e0 + (e - e0)) by lia.
      rewrite scale_add by lia.
      specialize (Hnear (Zpos m * 2 ^ (e - e0))).
      now rewrite <- Z.mul_assoc in Hnear.
    + assert (Hbelow : Zpos m * scale e <= m2 * scale e0).
      { pose proof (scale_le e (e0 - 1)) as Hle.
        pose proof (scale_succ (e0 - 1)) as Hs.
        replace (e0 - 1 + 1) with e0 in Hs by lia.
        pose proof (scale_pos e). nia. }
      specialize (Hnear m2). lia.
Qed.

Lemma shl_align_le (mx : positive) (ex ex' : Z) :
  ex' <= ex ->
  exists mz, shl_align mx ex ex' = (mz, ex') /\
             Zpos mz = Zpos mx * 2 ^ (ex - ex').
Proof.
  intros Hle. unfold shl_align.
  destruct (ex' - ex) as [| d | d] eqn:Hd; try lia.
  - exists mx. replace ex' with ex by lia.
    rewrite Z.sub_diag, Z.pow_0_r. split; [reflexivity | lia].
  - exists (Pos.iter xO mx d). split; [reflexivity |].
    replace (ex - ex') with (Zpos d) by lia.
    change (Pos.iter xO mx d) with (shift_pos d mx).
    rewrite shift_pos_correct. change (Z.pow_pos 2 d) with (2 ^ Zpos d). lia.
Qed.

Lemma shl_align_gt (mx : positive) (ex ex' : Z) :
  ex < ex' -> shl_align mx ex ex' = (mx, ex).
Proof.
  intros Hlt. unfold shl_align.
  destruct (ex' - ex) as [| d | d] eqn:Hd; try lia; reflexivity.
Qed.

(** A mantissa of at most 53 bits is not rounded. *)
Lemma binary_round_exact (s : bool) (M : positive) (E : Z) :
  -1074 <= E -> Zpos (digits2_pos M) <= 53 ->
  let e0 := Z.max (Zpos (digits2_pos M) + E - 53) (-1074) in
  exists mz,
    Zpos mz * scale e0 = Zpos M * scale E /\
    binary_round prec emax s M E
    = if e0 <=? 971 then S754_finite s mz e0 else S754_infinity s.
Proof.
  intros HE Hd e0.
  assert (He0 : -1074 <= e0 <= E) by lia.
  unfold binary_round. rewrite fexp_eq. fold e0.
  destruct (shl_align_le M E e0 (proj2 He0)) as (mz & Hal & Hmz).
  rewrite Hal. exists mz. split.
  - assert (HsE : scale E = 2 ^ (E - e0) * scale e0).
    { rewrite <- scale_add by lia. f_equal. lia. }
    rewrite HsE, Hmz. lia.
  - assert (Hdz : Zpos (digits2_pos mz) = Zpos (digits2_pos M) + (E - e0)).
    { destruct (digits2_bounds M) as [Dlo Dhi].
      pose proof (Pos2Z.is_pos (digits2_pos M)) as Hdpos.
      apply digits2_unique; [| lia].
      rewrite Hmz.
      replace (Zpos (digits2_pos M) + (E - e0) - 1)
        with ((Zpos (digits2_pos M) - 1) + (E - e0)) by lia.
      rewrite !Z.pow_add_r by lia.
      assert (0 < 2 ^ (E - e0)) by (apply Z.pow_pos_nonneg; lia).
      nia. }
    unfold binary_round_aux, shr_fexp. cbn [Zdigits2 shr_record_of_loc].
    rewrite fexp_eq, Hdz.
    replace (Z.max (Zpos (digits2_pos M) + (E - e0) + e0 - 53) (-1074) - e0)
      with 0 by lia.
    cbn [shr shr_m loc_of_shr_record round_nearest_even Zdigits2].
    rewrite fexp_eq, Hdz.
    replace (Z.max (Zpos (digits2_pos M) + (E - e0) + e0 - 53) (-1074) - e0)
      with 0 by lia.
    cbn [shr shr_m].
    change (emax - prec) with 971. reflexivity.
Qed.

(** A mantissa of more than 53 bits is shifted to 53 bits and rounded to
    nearest; the result is the rounded mantissa at the shifted exponent
    (renormalised when the rounding carries into a 54th bit), or an
    infinity when that exponent is too large. *)
Lemma binary_round_shift (s : bool) (M : positive) (E : Z) :
  -1074 <= E -> 53 < Zpos (digits2_pos M) ->
  let n := Zpos (digits2_pos M) - 53 in
  let e0 := E + n in
  exists m2 m3,
    2 ^ 52 <= m2 /\ m2 <= m3 <= m2 + 1 /\
    m2 * 2 ^ n <= Zpos M /\
    (forall j, Z.abs (m3 * 2 ^ n - Zpos M) <= Z.abs (j * 2 ^ n - Zpos M)) /\
    exists mr er,
      ((er = e0 /\ Zpos mr = m3 /\ m3 < 2 ^ 53) \/
       (er = e0 + 1 /\ Zpos mr = 2 ^ 52 /\ m3 = 2 ^ 53)) /\
      binary_round prec emax s M E
      = if er <=? 971 then S754_finite s mr er else S754_infinity s.
Proof.
  intros HE Hd n e0.
  unfold binary_round. rewrite fexp_eq.
  rewrite shl_align_gt by lia.
  unfold binary_round_aux, shr_fexp at 1. cbn [Zdigits2 shr_record_of_loc].
  rewrite fexp_eq.
  replace (Z.max (Zpos (digits2_pos M) + E - 53) (-1074) - E) with n by lia.
  destruct n as [| p | p] eqn:Hn; try lia.
  cbn [shr].
  pose proof (shr_inv_iter (Zpos M) p 0 (Build_shr_record (Zpos M) false false)
                (Z.le_refl 0) (shr_inv_0 (Zpos M) (Pos2Z.is_nonneg M))) as Hinv.
  rewrite Z.add_0_l in Hinv.
  set (mrs := iter_pos shr_1 p (Build_shr_record (Zpos M) false false)) in *.
  destruct (round_nearest (Zpos M) (Zpos p) mrs (Pos2Z.is_nonneg p) Hinv)
    as [Hm3 Hnear].
  set (m3 := round_nearest_even (shr_m mrs) (loc_of_shr_record mrs)) in *.
  assert (Hm2 : 2 ^ 52 <= shr_m mrs < 2 ^ 53).
  { destruct Hinv as (_ & HR & _).
    destruct (digits2_bounds M) as [Dlo Dhi].
    replace (Zpos (digits2_pos M)) with (53 + Zpos p) in Dhi by lia.
    replace (Zpos (digits2_pos M) - 1) with (52 + Zpos p) in Dlo by lia.
    rewrite Z.pow_add_r in Dlo, Dhi by lia.
    assert (0 < 2 ^ Zpos p) by (apply Z.pow_pos_nonneg; lia).
    nia. }
  exists (shr_m mrs), m3.
  split; [lia |]. split; [exact Hm3 |].
  split; [destruct Hinv as (_ & HR & _); lia |].
  split; [exact Hnear |].
  replace (E + Zpos p) with e0 by lia.
  assert (He0 : -1074 <= e0) by lia.
  destruct m3 as [| q | q] eqn:Hq; try lia.
  unfold shr_fexp. cbn [Zdigits2 shr_record_of_loc]. rewrite fexp_eq.
  destruct (Z_lt_ge_dec (Zpos q) (2 ^ 53)) as [Hlt | Hge].
  - assert (Hdq : Zpos (digits2_pos q) = 53)
      by (apply digits2_unique; [change (53 - 1) with 52 |]; lia).
    rewrite Hdq.
    replace (Z.max (53 + e0 - 53) (-1074) - e0) with 0 by lia.
    cbn [shr shr_m].
    exists q, e0. split; [left; repeat split; lia |].
    change (emax - prec) with 971. reflexivity.
  - assert (Hq53 : Zpos q = 2 ^ 53) by lia.
    assert (Hqv : q = 9007199254740992%positive)
      by (apply Pos2Z.inj; rewrite Hq53; reflexivity).
    subst q.
    change (Zpos (digits2_pos 9007199254740992)) with 54.
    replace (Z.max (54 + e0 - 53) (-1074) - e0) with 1 by lia.
    cbn [shr iter_pos shr_1 shr_m].
    exists 4503599627370496%positive, (e0 + 1).
    split; [right; repeat split; reflexivity |].
    change (emax - prec) with 971. reflexivity.
Qed.

(** [binary_round] returns a float of the given sign, never a zero or NaN,
    whose magnitude is nearest to the exact one among the magnitudes of
    floats (an infinity counting as [2 ^ 1024]). *)
Lemma binary_round_nearest (s : bool) (M : positive) (E : Z) (z : spec_float) :
  -1074 <= E -> valid_binary z = true ->
  let r := binary_round prec emax s M E in
  (r = S754_infinity s \/ exists m e, r = S754_finite s m e) /\
  Z.abs (sf_mag r - Zpos M * scale E) <= Z.abs (sf_mag z - Zpos M * scale E).
Proof.
  intros HE Hv r. subst r.
  pose proof (sf_mag_bound z Hv) as Hzb.
  pose proof (scale_pos E HE) as HsE.
  assert (Hover : forall e0 m2, 972 <= e0 -> 2 ^ 52 <= m2 ->
            m2 * scale e0 <= Zpos M * scale E ->
            Z.abs (scale 1024 - Zpos M * scale E)
            <= Z.abs (sf_mag z - Zpos M * scale E)).
  { intros e0 m2 He0 Hm2 Hfloor.
    assert (scale 1024 <= m2 * scale e0).
    { change 1024 with (972 + 52). rewrite scale_add by lia.
      pose proof (scale_le 972 e0). pose proof (scale_pos 972). nia. }
    lia. }
  destruct (Z_le_gt_dec (Zpos (digits2_pos M)) 53) as [Hd | Hd].
  - destruct (binary_round_exact s M E HE Hd) as (mz & Hval & Hres).
    cbv zeta in Hval, Hres. rewrite Hres.
    set (e0 := Z.max (Zpos (digits2_pos M) + E - 53) (-1074)) in *.
    destruct (Z.leb_spec e0 971) as [Hle | Hgt].
    + split; [right; eauto |]. cbn [sf_mag]. rewrite Hval. lia.
    + split; [left; reflexivity |]. cbn [sf_mag].
      apply (Hover e0 (Zpos mz)); [lia | | lia].
      destruct (digits2_bounds M) as [Dlo _].
      assert (He0 : e0 = Zpos (digits2_pos M) + E - 53) by lia.
      assert (Hsc : scale E = 2 ^ (E - e0) * scale e0).
      { rewrite <- scale_add by lia. f_equal. lia. }
      assert (Hmz : Zpos mz = Zpos M * 2 ^ (E - e0)).
      { pose proof (scale_pos e0). rewrite Hsc in Hval. nia. }
      rewrite Hmz.
      replace 52 with ((Zpos (digits2_pos M) - 1) + (E - e0)) by lia.
      rewrite Z.pow_add_r by lia.
      assert (0 < 2 ^ (E - e0)) by (apply Z.pow_pos_nonneg; lia).
      nia.
  - destruct (binary_round_shift s M E HE) as
      (m2 & m3 & Hm2 & Hm3 & Hfloor & Hnear & mr & er & Hcase & Hres);
      [lia |].
    cbv zeta in Hfloor, Hnear, Hcase, Hres. rewrite Hres.
    set (n := Zpos (digits2_pos M) - 53) in *.
    set (e0 := E + n) in *.
    assert (HG : scale e0 = 2 ^ n * scale E)
      by (unfold e0; apply scale_add; lia).
    assert (Hfloor' : m2 * scale e0 <= Zpos M * scale E) by (rewrite HG; nia).
    assert (Hnear' : forall j,
               Z.abs (m3 * scale e0 - Zpos M * scale E)
               <= Z.abs (j * scale e0 - Zpos M * scale E)).
    { intros j. rewrite HG.
      replace (m3 * (2 ^ n * scale E) - Zpos M * scale E)
        with ((m3 * 2 ^ n - Zpos M) * scale E) by ring.
      replace (j * (2 ^ n * scale E) - Zpos M * scale E)
        with ((j * 2 ^ n - Zpos M) * scale E) by ring.
      apply abs_le_scale; [lia | apply Hnear]. }
    assert (He0 : -1074 <= e0) by lia.
    destruct (Z.leb_spec er 971) as [Hle | Hgt].
    + split; [right; eauto |]. cbn [sf_mag].
      replace (Zpos mr * scale er) with (m3 * scale e0).
      * apply (grid_nearest e0 _ m2 m3 z); try assumption. intros; lia.
      * destruct Hcase as [(-> & -> & _) | (-> & -> & ->)];
          [reflexivity | rewrite scale_succ by lia; lia].
    + split; [left; reflexivity |]. cbn [sf_mag].
      destruct (Z_le_gt_dec 972 e0) as [Hbig | Hsmall].
      * apply (Hover e0 m2); assumption.
      * assert (He971 : e0 = 971) by lia.
        assert (Hm3v : m3 = 2 ^ 53) by lia.
        replace (scale 1024) with (m3 * scale e0)
          by (rewrite scale_1024, Hm3v, He971; reflexivity).
        apply (grid_nearest e0 _ m2 m3 z); try assumption. intros; lia.
Qed.

(** Among valid positive floats the order by exponent and mantissa is the
    order of the magnitudes. *)
Lemma finite_mag_lt (s1 s2 : bool) (m1 m2 : positive) (e1 e2 : Z) :
  valid_binary (S754_finite s1 m1 e1) = true ->
  valid_binary (S754_finite s2 m2 e2) = true ->
  (e1 < e2 \/ (e1 = e2 /\ Zpos m1 < Zpos m2)) <->
  Zpos m1 * scale e1 < Zpos m2 * scale e2.
Proof.
  intros H1 H2. apply valid_finite in H1, H2.
  destruct H1 as (He1 & Hm1 & Hn1). destruct H2 as (He2 & Hm2 & Hn2).
  assert (Hstep : forall ma mb ea eb,
             -1074 <= ea -> ea < eb -> Zpos ma < 2 ^ 53 -> 2 ^ 52 <= Zpos mb ->
             Zpos ma * scale ea < Zpos mb * scale eb).
  { intros ma mb ea eb Hea Hlt Hma Hmb.
    pose proof (scale_pos ea Hea). pose proof (scale_succ ea Hea).
    pose proof (scale_le (ea + 1) eb). nia. }
  pose proof (scale_pos e1). pose proof (scale_pos e2).
  split.
  - intros [Hlt | [Heq Hlt]].
    + apply Hstep; lia.
    + subst e2. nia.
  - intros Hlt.
    destruct (Z.lt_trichotomy e1 e2) as [H12 | [H12 | H12]].
    + now left.
    + right. split; [exact H12 |]. subst e2. nia.
    + exfalso.
      assert (Zpos m2 * scale e2 < Zpos m1 * scale e1).
      { apply Hstep; lia. }
      lia.
Qed.

Lemma finite_mag_lt_inf (s : bool) (m : positive) (e : Z) :
  valid_binary (S754_finite s m e) = true ->
  0 < Zpos m * scale e < scale 1024.
Proof.
  intros Hv. apply valid_finite in Hv. destruct Hv as (He & Hm & _).
  rewrite scale_1024.
  pose proof (scale_pos e). pose proof (scale_le e 971). nia.
Qed.

(** On valid floats the IEEE order is the order of the values. *)
Lemma key_lt_val (x y : spec_float) :
  valid_binary x = true -> valid_binary y = true ->
  sf_is_nan x = false -> sf_is_nan y = false ->
  key_lt (sf_key x) (sf_key y) <-> sf_val x < sf_val y.
Proof.
  intros Hx Hy Hnx Hny.
  pose proof (scale_pos 1024) as H1024.
  destruct x as [sx | sx | | sx mx ex]; try discriminate;
    destruct y as [sy | sy | | sy my ey]; try discriminate;
    try pose proof (finite_mag_lt_inf _ _ _ Hx) as Hbx;
    try pose proof (finite_mag_lt_inf _ _ _ Hy) as Hby;
    try pose proof (finite_mag_lt _ _ _ _ _ _ Hx Hy) as Hxy;
    try pose proof (finite_mag_lt _ _ _ _ _ _ Hy Hx) as Hyx;
    try destruct sx; try destruct sy;
    unfold sf_val, key_lt; cbn [sf_key sf_sign sf_mag];
    split; intros H; lia.
Qed.

Lemma sf_val_cases (z : spec_float) :
  valid_binary z = true ->
  0 <= sf_mag z /\ (sf_val z = sf_mag z \/ sf_val z = - sf_mag z).
Proof.
  intros Hv. split; [now apply sf_mag_nonneg |].
  unfold sf_val. destruct (sf_sign z); auto.
Qed.

(** The sum of two finite floats is a float nearest to the exact sum. *)
Lemma SF64add_finite_nearest (sx sy : bool) (mx my : positive) (ex ey : Z)
    (z : spec_float) :
  valid_binary (S754_finite sx mx ex) = true ->
  valid_binary (S754_finite sy my ey) = true ->
  valid_binary z = true ->
  let x := S754_finite sx mx ex in
  let y := S754_finite sy my ey in
  sf_is_nan (SF64add x y) = false /\
  Z.abs (sf_val (SF64add x y) - (sf_val x + sf_val y))
  <= Z.abs (sf_val z - (sf_val x + sf_val y)).
Proof.
  intros Hx Hy Hz x y.
  pose proof (valid_finite _ _ _ Hx) as (Hex & _ & _).
  pose proof (valid_finite _ _ _ Hy) as (Hey & _ & _).
  unfold x, y, SF64add, SFadd.
  set (ez := Z.min ex ey).
  assert (Hez : -1074 <= ez) by (unfold ez; lia).
  destruct (shl_align_le mx ex ez) as (Mx & Hax & HMx); [unfold ez; lia |].
  destruct (shl_align_le my ey ez) as (My & Hay & HMy); [unfold ez; lia |].
  rewrite Hax, Hay. cbn [fst].
  assert (Hsx : Zpos mx * scale ex = Zpos Mx * scale ez).
  { replace ex with (ez + (ex - ez)) at 1 by lia.
    rewrite scale_add by (unfold ez; lia). rewrite HMx. ring. }
  assert (Hsy : Zpos my * scale ey = Zpos My * scale ez).
  { replace ey with (ez + (ey - ez)) at 1 by lia.
    rewrite scale_add by (unfold ez; lia). rewrite HMy. ring. }
  assert (HX : sf_val (S754_finite sx mx ex) + sf_val (S754_finite sy my ey)
               = (cond_Zopp sx (Zpos Mx) + cond_Zopp sy (Zpos My)) * scale ez).
  { unfold sf_val. cbn [sf_sign sf_mag]. rewrite Hsx, Hsy.
    destruct sx, sy; cbn [cond_Zopp]; ring. }
  rewrite HX.
  destruct (sf_val_cases z Hz) as [Hz0 Hzs].
  pose proof (scale_pos ez Hez) as Hsc.
  destruct (cond_Zopp sx (Zpos Mx) + cond_Zopp sy (Zpos My)) as [| p | p];
    cbn [binary_normalize].
  - split; [reflexivity |]. unfold sf_val. cbn [sf_sign sf_mag]. lia.
  - destruct (binary_round_nearest false p ez z Hez Hz) as [Hshape Hnear].
    destruct (binary_round_nearest false p ez (S754_zero false) Hez eq_refl)
      as [_ Hnear0].
    cbv zeta in Hshape, Hnear, Hnear0. cbn [sf_mag] in Hnear0.
    assert (Hr : sf_is_nan (binary_round prec emax false p ez) = false /\
                 sf_val (binary_round prec emax false p ez)
                 = sf_mag (binary_round prec emax false p ez)).
    { destruct Hshape as [-> | (m & e & ->)]; split; reflexivity. }
    destruct Hr as [Hnan Hval]. split; [exact Hnan |].
    rewrite Hval. pose proof (Pos2Z.is_pos p). nia.
  - destruct (binary_round_nearest true p ez z Hez Hz) as [Hshape Hnear].
    destruct (binary_round_nearest true p ez (S754_zero false) Hez eq_refl)
      as [_ Hnear0].
    cbv zeta in Hshape, Hnear, Hnear0. cbn [sf_mag] in Hnear0.
    assert (Hr : sf_is_nan (binary_round prec emax true p ez) = false /\
                 sf_val (binary_round prec emax true p ez)
                 = - sf_mag (binary_round prec emax true p ez)).
    { destruct Hshape as [-> | (m & e & ->)]; split; reflexivity. }
    destruct Hr as [Hnan Hval]. split; [exact Hnan |].
    rewrite Hval.
    replace (Z.neg p * scale ez) with (- (Zpos p * scale ez)) by lia.
    pose proof (Pos2Z.is_pos p). nia.
Qed.


(** The sum of two finite floats, as a float. *)
Lemma add_nearest (t c u : float) (st sc : bool) (mt mc : positive)
    (et ec : Z) :
  Prim2SF t = S754_finite st mt et -> Prim2SF c = S754_finite sc mc ec ->
  is_nan (t + c) = false /\
  Z.abs (sf_val (Prim2SF (t + c)) - (sf_val (Prim2SF t) + sf_val (Prim2SF c)))
  <= Z.abs (sf_val (Prim2SF u) - (sf_val (Prim2SF t) + sf_val (Prim2SF c))).
Proof.
  intros Ht Hc. unfold is_nan. rewrite FloatAxioms.add_spec, Ht, Hc.
  apply SF64add_finite_nearest.
  - rewrite <- Ht. apply Prim2SF_valid.
  - rewrite <- Hc. apply Prim2SF_valid.
  - apply Prim2SF_valid.
Qed.

Lemma leb_val (x y : float) :
  is_nan x = false -> is_nan y = false ->
  sf_val (Prim2SF x) <= sf_val (Prim2SF y) -> (x <=? y)%float = true.
Proof.
  intros Hx Hy Hle. apply leb_key. repeat split; try assumption.
  unfold key. intros Hlt.
  apply key_lt_val in Hlt; try apply Prim2SF_valid; try assumption. lia.
Qed.

(** The three tiers derived from a base threshold ascend: adding 1.0 does
    not go below the threshold, and adding 2.0 does not go below adding
    1.0. *)
Lemma tiers_ascend (t : float) :
  is_nan t = false ->
  (t <=? t + 1.0)%float = true /\ (t + 1.0 <=? t + 2.0)%float = true.
Proof.
  intros Hn. unfold is_nan in Hn.
  destruct (Prim2SF t) as [s | s | | s m e] eqn:Ht; try discriminate.
  - rewrite !FloatAxioms.leb_spec, !FloatAxioms.add_spec, Ht.
    destruct s; split; vm_compute; reflexivity.
  - rewrite !FloatAxioms.leb_spec, !FloatAxioms.add_spec, Ht.
    destruct s; split; vm_compute; reflexivity.
  - assert (H1 : Prim2SF 1.0 = S754_finite false 4503599627370496 (-52))
      by (vm_compute; reflexivity).
    assert (H2 : Prim2SF 2.0 = S754_finite false 4503599627370496 (-51))
      by (vm_compute; reflexivity).
    assert (Hv1 : 0 < sf_val (Prim2SF 1.0)).
    { rewrite H1. unfold sf_val. cbn [sf_sign sf_mag].
      pose proof (scale_pos (-52)). lia. }
    assert (Hv2 : sf_val (Prim2SF 1.0) < sf_val (Prim2SF 2.0)).
    { rewrite H1, H2. unfold sf_val. cbn [sf_sign sf_mag].
      change (-51) with (-52 + 1). rewrite scale_succ by lia.
      pose proof (scale_pos (-52)). lia. }
    assert (Hnt : is_nan t = false) by (unfold is_nan; rewrite Ht; reflexivity).
    destruct (add_nearest t 1.0 t _ _ _ _ _ _ Ht H1) as [Hn1 Hnear1].
    destruct (add_nearest t 1.0 (t + 2.0) _ _ _ _ _ _ Ht H1) as [_ Hnear12].
    destruct (add_nearest t 2.0 (t + 1.0) _ _ _ _ _ _ Ht H2) as [Hn2 Hnear21].
    split; apply leb_val; try assumption; lia.
Qed.

Lemma nan_not_ltb (x w : float) :
  is_nan w = true -> (x <? w)%float = false.
Proof.
  intros Hw. apply not_true_is_false. intros H.
  apply ltb_key in H. destruct H as (_ & H & _). congruence.
Qed.

(** ** Deviation *)

Lemma calculate_deviation_nonzero (self : MADeviationAnalyzer) (cp ma : float) :
  (ma =? 0)%float = false ->
  calculate_deviation self cp ma = Ok ((cp - ma) / ma * 100)%float.
Proof.
  intros Hnz. unfold calculate_deviation, py_truediv.
  rewrite Hnz. reflexivity.
Qed.

Lemma calculate_deviation_zero (self : MADeviationAnalyzer) (cp ma : float) :
  (ma =? 0)%float = true -> calculate_deviation self cp ma = Ok 0.0%float.
Proof.
  intros Hz. unfold calculate_deviation. rewrite Hz. reflexivity.
Qed.

Lemma calculate_deviation_returns (self : MADeviationAnalyzer) (cp ma : float) :
  returns (calculate_deviation self cp ma).
Proof.
  destruct (ma =? 0)%float eqn:E.
  - exists 0.0%float. now apply calculate_deviation_zero.
  - eexists. now apply calculate_deviation_nonzero.
Qed.

(** C3: [calculate_deviation] returns
    [(current_price - ma_value) / ma_value * 100] when [ma_value] is not
    zero and exactly [0.0] when [ma_value == 0], whatever the current price;
    it raises no error in either case. *)
Theorem calculate_deviation_rule (self : MADeviationAnalyzer)
    (current_price ma_value : float) :
  ((ma_value =? 0)%float = false ->
     calculate_deviation self current_price ma_value
     = Ok ((current_price - ma_value) / ma_value * 100)%float) /\
  ((ma_value =? 0)%float = true ->
     calculate_deviation self current_price ma_value = Ok 0.0%float) /\
  returns (calculate_deviation self current_price ma_value) /\
  ~ raises (calculate_deviation self current_price ma_value).
Proof.
  split; [apply calculate_deviation_nonzero |].
  split; [apply calculate_deviation_zero |].
  split; [apply calculate_deviation_returns |].
  intros [e He].
  destruct (calculate_deviation_returns self current_price ma_value) as [d Hd].
  congruence.
Qed.

(** ** Classification and strength *)

Section Classification.

Variable fmt_2f : float -> string.

Lemma generate_signal_strength (self : MADeviationAnalyzer) (d : float)
    (label : string) :
  strength (generate_signal fmt_2f self d label) = get_signal_strength self d.
Proof.
  unfold generate_signal.
  destruct (weak (THRESHOLDS self) <=? d)%float;
    [| destruct (d <=? - weak (THRESHOLDS self))%float]; reflexivity.
Qed.

Lemma generate_signal_deviation (self : MADeviationAnalyzer) (d : float)
    (label : string) :
  deviation_pct (generate_signal fmt_2f self d label) = d.
Proof.
  unfold generate_signal.
  destruct (weak (THRESHOLDS self) <=? d)%float;
    [| destruct (d <=? - weak (THRESHOLDS self))%float]; reflexivity.
Qed.

Lemma generate_signal_signal (self : MADeviationAnalyzer) (d : float)
    (label : string) :
  signal (generate_signal fmt_2f self d label) =
    if (weak (THRESHOLDS self) <=? d)%float then SELL
    else if (d <=? - weak (THRESHOLDS self))%float then BUY
    else NEUTRAL.
Proof.
  unfold generate_signal.
  destruct (weak (THRESHOLDS self) <=? d)%float;
    [| destruct (d <=? - weak (THRESHOLDS self))%float]; reflexivity.
Qed.

(** A signal that is not NEUTRAL has a strength of weight at least 1,
    whatever the thresholds are. *)
Lemma classified_has_weight (self : MADeviationAnalyzer) (d : float)
    (label : string) :
  signal (generate_signal fmt_2f self d label) <> NEUTRAL ->
  1 <= strength_weights (strength (generate_signal fmt_2f self d label)).
Proof.
  rewrite generate_signal_strength, generate_signal_signal.
  intros Hsig.
  assert (Hw : (weak (THRESHOLDS self) <=? abs d)%float = true).
  { destruct (weak (THRESHOLDS self) <=? d)%float eqn:E1.
    - now apply leb_abs.
    - destruct (d <=? - weak (THRESHOLDS self))%float eqn:E2.
      + now apply leb_opp_abs.
      + congruence. }
  unfold get_signal_strength.
  destruct (strong (THRESHOLDS self) <=? abs d)%float; [simpl; lia |].
  destruct (medium (THRESHOLDS self) <=? abs d)%float; [simpl; lia |].
  rewrite Hw. simpl. lia.
Qed.

(** C2: with weak = t, medium = t + 1.0 and strong = t + 2.0, the
    classification is SELL if d >= weak, otherwise BUY if d <= -weak
    (for a positive t the two tests cannot both hold), otherwise NEUTRAL;
    a deviation of exactly weak is classified.  The strength is STRONG if
    |d| >= strong, MEDIUM if medium <= |d| < strong, WEAK if
    weak <= |d| < medium and NONE if |d| < weak, each tier including its
    lower edge. *)
Theorem classification_rule (d t : float) (label : string) :
  let self := __init__ t in
  let th := THRESHOLDS self in
  let sig := generate_signal fmt_2f self d label in
  (weak th = t /\ medium th = (t + 1.0)%float /\ strong th = (t + 2.0)%float) /\
  (fge d (weak th) -> signal sig = SELL) /\
  (~ fge d (weak th) -> fle d (- weak th) -> signal sig = BUY) /\
  (flt 0 t -> fle d (- weak th) -> signal sig = BUY) /\
  (~ fge d (weak th) -> ~ fle d (- weak th) -> signal sig = NEUTRAL) /\
  (is_nan t = false -> d = weak th -> signal sig = SELL) /\
  (fge (abs d) (strong th) -> strength sig = STRONG) /\
  (fge (abs d) (medium th) -> flt (abs d) (strong th) ->
     strength sig = MEDIUM) /\
  (fge (abs d) (weak th) -> flt (abs d) (medium th) ->
     strength sig = WEAK) /\
  (flt (abs d) (weak th) -> strength sig = NONE).
Proof.
  intros self th sig.
  unfold fge, fle, flt.
  assert (Hsig := generate_signal_signal self d label).
  assert (Hstr := generate_signal_strength self d label).
  fold sig th in Hsig, Hstr.
  rewrite Hsig, Hstr. unfold get_signal_strength. fold th.
  assert (Hasc : is_nan (weak th) = false ->
                 (weak th <=? medium th)%float = true /\
                 (medium th <=? strong th)%float = true)
    by exact (tiers_ascend t).
  split; [repeat split |].
  split; [intros H; rewrite H; reflexivity |].
  split.
  { intros H1 H2. apply not_true_is_false in H1. rewrite H1, H2. reflexivity. }
  split.
  { intros Hpos H2.
    rewrite (leb_opp_not_leb (weak th) d Hpos H2), H2. reflexivity. }
  split.
  { intros H1 H2. apply not_true_is_false in H1, H2.
    rewrite H1, H2. reflexivity. }
  split.
  { intros Hn Hd. subst d. rewrite (leb_refl (weak th) Hn). reflexivity. }
  split; [intros H; rewrite H; reflexivity |].
  split.
  { intros Hm Hs. rewrite (ltb_not_leb _ _ Hs), Hm. reflexivity. }
  split.
  { intros Hw Hm.
    assert (Hn : is_nan (weak th) = false)
      by (apply leb_key in Hw; tauto).
    destruct (Hasc Hn) as [_ Hms].
    rewrite (ltb_leb_not_leb _ _ _ Hm Hms), (ltb_not_leb _ _ Hm), Hw.
    reflexivity. }
  intros Hw.
  assert (Hn : is_nan (weak th) = false)
    by (apply ltb_key in Hw; tauto).
  destruct (Hasc Hn) as [Hwm Hms].
  assert (Hm : (medium th <=? abs d)%float = false)
    by exact (ltb_leb_not_leb _ _ _ Hw Hwm).
  rewrite (ltb_not_leb _ _ Hw), Hm.
  destruct (strong th <=? abs d)%float eqn:Hs; [| reflexivity].
  exfalso.
  apply leb_key in Hms, Hs. apply ltb_key in Hw. apply leb_key in Hwm.
  destruct Hms as (_ & _ & Hms). destruct Hs as (_ & _ & Hs).
  destruct Hw as (_ & _ & Hw). destruct Hwm as (_ & _ & Hwm).
  remember (key (abs d)) as ka. remember (key (weak th)) as kw.
  remember (key (medium th)) as km. remember (key (strong th)) as ks.
  clear Heqka Heqkw Heqkm Heqks Hasc.
  split_keys. lia.
Qed.

End Classification.

(** ** Sorting the history *)

Lemma insert_by_date_perm (r : Row) (df : DataFrame) :
  Permutation (r :: df) (insert_by_date r df).
Proof.
  induction df as [|r' df IH]; simpl.
  - apply Permutation_refl.
  - destruct (date r <? date r').
    + apply Permutation_refl.
    + apply perm_trans with (r' :: r :: df).
      * apply perm_swap.
      * apply perm_skip. exact IH.
Qed.

Lemma sort_from_perm (df acc : DataFrame) :
  Permutation (df ++ acc)
              (fold_left (fun acc r => insert_by_date r acc) df acc).
Proof.
  revert acc. induction df as [|r df IH]; intros acc; simpl.
  - apply Permutation_refl.
  - eapply perm_trans; [| apply IH].
    apply perm_trans with (df ++ r :: acc)%list.
    + apply Permutation_middle.
    + apply Permutation_app_head. apply insert_by_date_perm.
Qed.

Lemma sort_values_perm (df : DataFrame) : Permutation df (sort_values df).
Proof.
  unfold sort_values.
  pose proof (sort_from_perm df []) as H.
  rewrite app_nil_r in H. exact H.
Qed.

Lemma sort_values_len (df : DataFrame) : len (sort_values df) = len df.
Proof.
  unfold len. f_equal. symmetry.
  apply Permutation_length, sort_values_perm.
Qed.

Lemma insert_by_date_hd (r a : Row) (df : DataFrame) :
  HdRel date_le a df -> date_le a r -> HdRel date_le a (insert_by_date r df).
Proof.
  intros Hhd Har. destruct df as [|r' df]; simpl.
  - constructor. exact Har.
  - destruct (date r <? date r').
    + constructor. exact Har.
    + constructor. inversion Hhd; assumption.
Qed.

Lemma insert_by_date_sorted (r : Row) (df : DataFrame) :
  Sorted date_le df -> Sorted date_le (insert_by_date r df).
Proof.
  induction df as [|r' df IH]; intros Hs; simpl.
  - repeat constructor.
  - inversion Hs as [| ? ? Hs' Hhd]; subst.
    destruct (Z.ltb_spec (date r) (date r')) as [Hlt | Hge].
    + constructor; [exact Hs |].
      constructor. unfold date_le. lia.
    + constructor; [apply IH; exact Hs' |].
      apply insert_by_date_hd; [exact Hhd | exact Hge].
Qed.

Lemma sort_from_sorted (df acc : DataFrame) :
  Sorted date_le acc ->
  Sorted date_le (fold_left (fun acc r => insert_by_date r acc) df acc).
Proof.
  revert acc. induction df as [|r df IH]; intros acc Hs; simpl.
  - exact Hs.
  - apply IH. now apply insert_by_date_sorted.
Qed.

Lemma sort_values_sorted (df : DataFrame) : Sorted date_le (sort_values df).
Proof. apply sort_from_sorted. constructor. Qed.

Lemma len_nil_iff {A : Type} (l : list A) : len l = 0 <-> l = [].
Proof.
  unfold len. destruct l; simpl; split; intros H;
    try reflexivity; try discriminate; lia.
Qed.

Lemma sort_values_nil_iff (df : DataFrame) : sort_values df = [] <-> df = [].
Proof.
  rewrite <- (len_nil_iff (sort_values df)), <- (len_nil_iff df).
  rewrite sort_values_len. reflexivity.
Qed.

Lemma iloc_last_returns (df : DataFrame) :
  df <> [] -> returns (iloc_last df).
Proof.
  intros Hne. unfold iloc_last.
  destruct (rev df) as [|r rest] eqn:E.
  - exfalso. apply Hne.
    rewrite <- (rev_involutive df), E. reflexivity.
  - exists r. reflexivity.
Qed.

(** ** The loop of [analyze] *)

Section AnalyzeFacts.

Variable round2 : float -> float.
Variable fmt_2f : float -> string.

Lemma period_signal_fields (self : MADeviationAnalyzer) (df : DataFrame)
    (cp : float) (period : Z) (d : float) :
  let s := period_signal round2 fmt_2f self df cp period d in
  let g := generate_signal fmt_2f self d ("MA" ++ str_int period) in
  signal s = signal g /\ strength s = strength g /\ deviation_pct s = d.
Proof.
  simpl. unfold period_signal, fill_in. simpl.
  rewrite generate_signal_deviation. repeat split.
Qed.

Lemma analyze_period_skip (self : MADeviationAnalyzer) (df : DataFrame)
    (cp : float) (st : list DeviationSignal * list (string * RawEntry))
    (period : Z) :
  len df < period ->
  analyze_period round2 fmt_2f self df cp st period = Ok st.
Proof.
  intros Hlt. unfold analyze_period. destruct st as [sigs raw].
  apply Z.ltb_lt in Hlt. rewrite Hlt. reflexivity.
Qed.

Lemma analyze_period_eval (self : MADeviationAnalyzer) (df : DataFrame)
    (cp : float) (st : list DeviationSignal * list (string * RawEntry))
    (period : Z) :
  period <= len df ->
  exists d raw,
    calculate_deviation self cp (calculate_ma self (close_column df) period)
      = Ok d /\
    analyze_period round2 fmt_2f self df cp st period
      = Ok ((fst st ++ [period_signal round2 fmt_2f self df cp period d])%list, raw).
Proof.
  intros Hle. unfold analyze_period. destruct st as [sigs raw].
  apply Z.ltb_ge in Hle. rewrite Hle.
  destruct (calculate_deviation_returns self cp
              (calculate_ma self (close_column df) period)) as [d Hd].
  rewrite Hd. simpl. exists d. eexists. split; reflexivity.
Qed.

(** The loop never raises, and a property that every appended signal has
    holds of all the signals it returns. *)
Lemma analyze_loop_inv (P : DeviationSignal -> Prop)
    (self : MADeviationAnalyzer) (df : DataFrame) (cp : float)
    (periods : list Z) :
  (forall period d,
      In period periods -> period <= len df ->
      calculate_deviation self cp (calculate_ma self (close_column df) period)
        = Ok d ->
      P (period_signal round2 fmt_2f self df cp period d)) ->
  forall st, Forall P (fst st) ->
  exists st',
    analyze_loop round2 fmt_2f self df cp periods st = Ok st' /\
    Forall P (fst st').
Proof.
  induction periods as [|period rest IH]; intros HP st Hst; simpl.
  - exists st. split; [reflexivity | exact Hst].
  - destruct (Z.lt_ge_cases (len df) period) as [Hlt | Hge].
    + rewrite analyze_period_skip by exact Hlt. simpl.
      apply IH; [| exact Hst].
      intros p d Hin. apply HP. now right.
    + destruct (analyze_period_eval self df cp st period Hge)
        as (d & raw & Hd & Hstep).
      rewrite Hstep. simpl.
      apply IH.
      * intros p d' Hin. apply HP. now right.
      * simpl. apply Forall_app. split; [exact Hst |].
        constructor; [| constructor].
        apply HP; [now left | exact Hge | exact Hd].
Qed.

Lemma analyze_loop_short (self : MADeviationAnalyzer) (df : DataFrame)
    (cp : float) (periods : list Z)
    (st : list DeviationSignal * list (string * RawEntry)) :
  Forall (fun period => len df < period) periods ->
  analyze_loop round2 fmt_2f self df cp periods st = Ok st.
Proof.
  induction periods as [|period rest IH]; intros Hall; simpl.
  - reflexivity.
  - inversion Hall as [| ? ? Hlt Hrest]; subst.
    rewrite analyze_period_skip by exact Hlt. simpl.
    apply IH. exact Hrest.
Qed.

(** What [analyze] returns on a non-empty history, given what the loop
    returned. *)
Lemma analyze_nonempty (P : DeviationSignal -> Prop)
    (self : MADeviationAnalyzer) (df : DataFrame)
    (stock_code stock_name now : string) :
  df <> [] ->
  (forall last_row period d,
      iloc_last (sort_values df) = Ok last_row ->
      In period ma_periods -> period <= len df ->
      calculate_deviation self (close last_row)
        (calculate_ma self (close_column (sort_values df)) period) = Ok d ->
      P (period_signal round2 fmt_2f self (sort_values df) (close last_row) period d)) ->
  exists result,
    analyze round2 fmt_2f self df stock_code stock_name now = Ok result /\
    Forall P (signals result) /\
    (overall_signal result, confidence result)
      = _calculate_overall_signal self (signals result) /\
    code result = stock_code /\ name result = stock_name /\
    analysis_time result = now.
Proof.
  intros Hne HP. unfold analyze.
  assert (Hsorted : sort_values df <> []).
  { intros H. apply (proj1 (sort_values_nil_iff df)) in H. contradiction. }
  assert (Hlen : (len (sort_values df) =? 0) = false).
  { apply Z.eqb_neq. intros H.
    apply (proj1 (len_nil_iff (sort_values df))) in H. contradiction. }
  rewrite Hlen.
  destruct (iloc_last_returns (sort_values df) Hsorted) as [last_row Hlast].
  rewrite Hlast. cbn [bind].
  destruct (analyze_loop_inv P self (sort_values df) (close last_row)
              ma_periods) with (st := (@nil DeviationSignal, @nil (string * RawEntry)))
    as ([sigs raw] & Hloop & Hall).
  - intros period d Hin Hle Hd.
    apply (HP last_row period d Hlast Hin); [| exact Hd].
    rewrite <- sort_values_len. exact Hle.
  - constructor.
  - rewrite Hloop. cbn [bind].
    destruct (_calculate_overall_signal self sigs) as [o c] eqn:Ho.
    eexists. split; [reflexivity |]. simpl.
    repeat split; try assumption. now rewrite Ho.
Qed.

End AnalyzeFacts.

(** ** Confidence of the overall signal *)

Lemma overall_confidence (self : MADeviationAnalyzer)
    (sigs : list DeviationSignal) (o : Signal) (c : Z) :
  _calculate_overall_signal self sigs = (o, c) ->
  (c = 0 <-> o = NEUTRAL) /\ (o <> NEUTRAL -> 20 <= c <= 100).
Proof.
  rewrite overall_signal_cases. cbv zeta.
  pose proof (side_weight_nonneg BUY sigs) as Hb.
  pose proof (side_weight_nonneg SELL sigs) as Hs.
  destruct (Z.ltb_spec (side_weight SELL sigs) (side_weight BUY sigs));
    destruct (Z.ltb_spec (side_weight BUY sigs) (side_weight SELL sigs));
    destruct (0 <? sum_int (map (fun _ => 1)
                (filter (fun s => Signal_eqb (signal s) BUY) sigs)));
    destruct (0 <? sum_int (map (fun _ => 1)
                (filter (fun s => Signal_eqb (signal s) SELL) sigs)));
    simpl; intros Heq; inversion Heq; subst; clear Heq;
    (split; [split; intros; first [congruence | lia | reflexivity]
            | intros; first [congruence | lia]]).
Qed.

(** ** Properties of [analyze] *)

Section AnalyzeProperties.

Variable round2 : float -> float.
Variable fmt_2f : float -> string.

Lemma analyze_empty (self : MADeviationAnalyzer)
    (stock_code stock_name now : string) :
  analyze round2 fmt_2f self [] stock_code stock_name now
  = Raise (ValueError ("股票 " ++ stock_code ++ " 数据为空")).
Proof. reflexivity. Qed.

Lemma analyze_returns (self : MADeviationAnalyzer) (df : DataFrame)
    (stock_code stock_name now : string) :
  df <> [] ->
  returns (analyze round2 fmt_2f self df stock_code stock_name now).
Proof.
  intros Hne.
  destruct (analyze_nonempty round2 fmt_2f (fun _ => True) self df
              stock_code stock_name now Hne) as (result & Hres & _).
  - intros; exact I.
  - exists result. exact Hres.
Qed.

(** C4: [analyze] raises an error exactly when the history has no point:
    on the empty history it raises the [ValueError] instead of building a
    result, and on every non-empty history it returns a result. *)
Theorem analyze_raises_iff_empty (self : MADeviationAnalyzer)
    (df : DataFrame) (stock_code stock_name now : string) :
  (raises (analyze round2 fmt_2f self df stock_code stock_name now)
     <-> len df = 0) /\
  (len df = 0 ->
     analyze round2 fmt_2f self df stock_code stock_name now
     = Raise (ValueError ("股票 " ++ stock_code ++ " 数据为空"))) /\
  (len df <> 0 ->
     returns (analyze round2 fmt_2f self df stock_code stock_name now)).
Proof.
  assert (Hret : len df <> 0 ->
            returns (analyze round2 fmt_2f self df stock_code stock_name now)).
  { intros Hne. apply analyze_returns. intros H. apply Hne.
    now apply len_nil_iff. }
  assert (Hraise : len df = 0 ->
            analyze round2 fmt_2f self df stock_code stock_name now
            = Raise (ValueError ("股票 " ++ stock_code ++ " 数据为空"))).
  { intros H. apply len_nil_iff in H. subst df. apply analyze_empty. }
  split; [| split; assumption].
  split.
  - intros [e He].
    destruct (Z.eq_dec (len df) 0) as [H0 | Hne]; [exact H0 |].
    destruct (Hret Hne) as [r Hr]. congruence.
  - intros H0. eexists. apply Hraise. exact H0.
Qed.

(** C6: on a non-empty history with fewer than 5 points, [analyze] skips
    each of the periods 5, 10, 20 and 60 and returns, without raising, a
    result whose [signals] are empty, whose [overall_signal] is NEUTRAL
    and whose [confidence] is 0. *)
Theorem analyze_short_history (self : MADeviationAnalyzer)
    (df : DataFrame) (stock_code stock_name now : string) :
  0 < len df -> len df < 5 ->
  ma_periods = [5; 10; 20; 60] /\
  (forall period st cp,
      In period ma_periods ->
      analyze_period round2 fmt_2f self (sort_values df) cp st period = Ok st) /\
  exists result,
    analyze round2 fmt_2f self df stock_code stock_name now = Ok result /\
    signals result = [] /\
    overall_signal result = NEUTRAL /\
    confidence result = 0.
Proof.
  intros Hpos Hshort.
  split; [reflexivity |].
  split.
  - intros period st cp Hin. apply analyze_period_skip.
    rewrite sort_values_len.
    simpl in Hin. destruct Hin as [H | [H | [H | [H | []]]]]; lia.
  - assert (Hne : df <> []).
    { intros H. subst df. unfold len in Hpos. simpl in Hpos. lia. }
    destruct (analyze_nonempty round2 fmt_2f (fun _ => False) self df
                stock_code stock_name now Hne)
      as (result & Hres & Hall & Hov & _).
    + intros last_row period d _ Hin Hle _.
      simpl in Hin. destruct Hin as [H | [H | [H | [H | []]]]]; lia.
    + exists result. split; [exact Hres |].
      assert (Hnil : signals result = []).
      { destruct (signals result) as [|s rest]; [reflexivity |].
        inversion Hall; contradiction. }
      rewrite Hnil in Hov. simpl in Hov.
      inversion Hov. repeat split; assumption.
Qed.


(** C10: in a result of [analyze] the confidence is 0 exactly when the
    overall signal is NEUTRAL, and a BUY or SELL overall signal has a
    confidence of at least 20 (and at most 100); every signal of the
    result that is classified BUY or SELL has a strength of weight at
    least 1. *)
Theorem analyze_confidence (self : MADeviationAnalyzer) (df : DataFrame)
    (stock_code stock_name now : string) (result : DeviationAnalysisResult) :
  analyze round2 fmt_2f self df stock_code stock_name now = Ok result ->
  (confidence result = 0 <-> overall_signal result = NEUTRAL) /\
  (overall_signal result <> NEUTRAL ->
     20 <= confidence result <= 100) /\
  Forall (fun s => signal s <> NEUTRAL ->
                   1 <= strength_weights (strength s))
         (signals result).
Proof.
  intros Hres.
  assert (Hne : df <> []).
  { intros H. subst df. rewrite analyze_empty in Hres. discriminate. }
  destruct (analyze_nonempty round2 fmt_2f
              (fun s => signal s <> NEUTRAL ->
                        1 <= strength_weights (strength s))
              self df stock_code stock_name now Hne)
    as (result' & Hres' & Hall & Hov & _).
  - intros last_row period d _ _ _ _.
    destruct (period_signal_fields round2 fmt_2f self (sort_values df)
                (close last_row) period d) as (Hs & Hst & _).
    rewrite Hs, Hst. apply classified_has_weight.
  - assert (result' = result) by congruence. subst result'.
    symmetry in Hov.
    destruct (overall_confidence self _ _ _ Hov) as [H0 H20].
    split; [exact H0 |]. split; [exact H20 | exact Hall].
Qed.

End AnalyzeProperties.

(** ** The moving average *)





(** ** Histories of equal prices *)


(** The deviation of a finite price from an average equal to it is a zero. *)
Lemma deviation_of_equal (self : MADeviationAnalyzer) (c : float) :
  finite_float c = true ->
  exists d s, calculate_deviation self c c = Ok d /\ Prim2SF d = S754_zero s.
Proof.
  intros Hfin. unfold finite_float in Hfin.
  destruct (c =? 0)%float eqn:Hz.
  - exists 0.0%float, false. split; [| reflexivity].
    now apply calculate_deviation_zero.
  - rewrite (calculate_deviation_nonzero self c c Hz).
    rewrite FloatAxioms.eqb_spec in Hz.
    destruct (Prim2SF c) as [sc | sc | | sc mc ec] eqn:Hc;
      try discriminate.
    exists ((c - c) / c * 100)%float, (xorb (xorb false sc) false).
    split; [reflexivity |].
    rewrite FloatAxioms.mul_spec, FloatAxioms.div_spec, FloatAxioms.sub_spec, Hc.
    assert (Hsub : SF64sub (S754_finite sc mc ec) (S754_finite sc mc ec)
                   = S754_zero false).
    { unfold SF64sub, SFsub. rewrite Z.sub_diag. reflexivity. }
    rewrite Hsub. reflexivity.
Qed.

(** A zero deviation is NEUTRAL under a positive weak threshold. *)
Lemma zero_deviation_neutral (w d : float) (s : bool) :
  (0 <? w)%float = true -> Prim2SF d = S754_zero s ->
  (w <=? d)%float = false /\ (d <=? - w)%float = false.
Proof.
  intros Hpos Hd.
  apply ltb_key in Hpos. destruct Hpos as (_ & _ & Hpos).
  change (key 0) with (0, 0, 0) in Hpos.
  assert (Hkd : key d = (0, 0, 0)) by (unfold key; rewrite Hd; reflexivity).
  destruct (key_of_opp w) as [Hko _].
  split; apply not_true_is_false; intros H; apply leb_key in H;
    destruct H as (_ & _ & H); rewrite Hkd in H; try rewrite Hko in H;
    remember (key w) as kw; clear Heqkw Hko; split_keys; lia.
Qed.

Lemma neutral_signals_overall (self : MADeviationAnalyzer)
    (sigs : list DeviationSignal) :
  Forall (fun s => signal s = NEUTRAL) sigs ->
  _calculate_overall_signal self sigs = (NEUTRAL, 0).
Proof.
  intros Hall. rewrite overall_signal_cases. cbv zeta.
  assert (Hw : forall side, side <> NEUTRAL -> side_weight side sigs = 0).
  { intros side Hside. induction Hall as [| s rest Hs _ IH]; simpl.
    - reflexivity.
    - rewrite Hs, IH. destruct side; simpl; congruence. }
  rewrite (Hw BUY), (Hw SELL) by discriminate.
  reflexivity.
Qed.

Lemma iloc_last_in (df : DataFrame) (r : Row) :
  iloc_last df = Ok r -> In r df.
Proof.
  unfold iloc_last. intros H.
  destruct (rev df) as [|r' rest] eqn:E; [discriminate |].
  inversion H; subst r'.
  apply in_rev. rewrite E. now left.
Qed.

Section FlatHistory.

Variable round2 : float -> float.
Variable fmt_2f : float -> string.


End FlatHistory.

(** ** The report *)

Section Report.

Variable fmt_plus_2f : float -> string.
Variable str_float : float -> string.

(** C9, as the code has it: the report ends with the overall-signal line
    with the confidence, followed by advisory lines fixed by
    [overall_signal] alone: a heading and two sentences for BUY, the same
    heading and two other sentences for SELL, and nothing for NEUTRAL,
    whose report ends with the overall-signal line. *)
Theorem format_result_ending (self : MADeviationAnalyzer)
    (result : DeviationAnalysisResult) :
  format_result fmt_plus_2f str_float self result
  = join_lines (app (report_head fmt_plus_2f str_float result)
                    (app [overall_line result]
                         (advice_lines (overall_signal result)))) /\
  overall_line result
  = signal_emoji (overall_signal result) ++ " **综合信号**: "
      ++ signal_text (overall_signal result)
      ++ " (置信度: " ++ str_int (confidence result) ++ "%)" /\
  advice_lines BUY
  = [""; "**操作建议**:";
     "- 价格跌破均线支撑，出现超卖迹象";
     "- 建议关注反弹机会，可考虑分批买入"] /\
  advice_lines SELL
  = [""; "**操作建议**:";
     "- 价格突破均线压力，出现超买迹象";
     "- 建议注意回调风险，可考虑分批止盈"] /\
  advice_lines NEUTRAL = [] /\
  advice_lines BUY <> advice_lines SELL.
Proof.
  split.
  - unfold format_result, format_lines, report_head.
    rewrite <- !app_assoc. reflexivity.
  - repeat split. discriminate.
Qed.

End Report.

(** ** The theorems at concrete inputs *)

Lemma overall_signal_rule_witness :
  _calculate_overall_signal (__init__ 1.5)
    [sample_signal BUY STRONG; sample_signal SELL WEAK] = (BUY, 60) /\
  _calculate_overall_signal (__init__ 1.5)
    [sample_signal BUY STRONG; sample_signal BUY MEDIUM] = (BUY, 100) /\
  _calculate_overall_signal (__init__ 1.5)
    [sample_signal SELL MEDIUM; sample_signal NEUTRAL NONE] = (SELL, 40) /\
  _calculate_overall_signal (__init__ 1.5)
    [sample_signal BUY STRONG; sample_signal SELL STRONG] = (NEUTRAL, 0) /\
  _calculate_overall_signal (__init__ 1.5) [] = (NEUTRAL, 0).
Proof.
  split; [| split; [| split; [| split]]].
  - destruct (overall_signal_rule (__init__ 1.5)
                [sample_signal BUY STRONG; sample_signal SELL WEAK])
      as (_ & H & _).
    apply H; [reflexivity | apply Exists_cons_hd; reflexivity].
  - destruct (overall_signal_rule (__init__ 1.5)
                [sample_signal BUY STRONG; sample_signal BUY MEDIUM])
      as (_ & H & _).
    apply H; [reflexivity | apply Exists_cons_hd; reflexivity].
  - destruct (overall_signal_rule (__init__ 1.5)
                [sample_signal SELL MEDIUM; sample_signal NEUTRAL NONE])
      as (_ & _ & H & _).
    apply H; [reflexivity | apply Exists_cons_hd; reflexivity].
  - destruct (overall_signal_rule (__init__ 1.5)
                [sample_signal BUY STRONG; sample_signal SELL STRONG])
      as (_ & _ & _ & _ & H & _).
    apply H. reflexivity.
  - destruct (overall_signal_rule (__init__ 1.5) [])
      as (_ & _ & _ & _ & _ & H).
    apply H. reflexivity.
Defined.

Lemma calculate_deviation_rule_witness :
  calculate_deviation (__init__ 1.5) 97 99 = Ok ((97 - 99) / 99 * 100)%float /\
  calculate_deviation (__init__ 1.5) 97 0 = Ok 0.0%float /\
  calculate_deviation (__init__ 1.5) 97 (-0) = Ok 0.0%float.
Proof.
  split; [| split].
  - apply (proj1 (calculate_deviation_rule (__init__ 1.5) 97 99)).
    reflexivity.
  - apply (proj1 (proj2 (calculate_deviation_rule (__init__ 1.5) 97 0))).
    reflexivity.
  - apply (proj1 (proj2 (calculate_deviation_rule (__init__ 1.5) 97 (-0)))).
    reflexivity.
Defined.

Lemma classification_rule_witness :
  let classify d :=
    let sig := generate_signal fmt_2f_py (__init__ 1.5) d "MA5" in
    (signal sig, strength sig) in
  classify 1.5%float = (SELL, WEAK) /\
  classify (-2.5)%float = (BUY, MEDIUM) /\
  classify (-3.5)%float = (BUY, STRONG) /\
  classify 1.4%float = (NEUTRAL, NONE).
Proof.
  cbv zeta.
  split; [| split; [| split]].
  - destruct (classification_rule fmt_2f_py 1.5 1.5 "MA5")
      as (_ & _ & _ & _ & _ & Hsig & _ & _ & Hstr & _).
    cbv zeta in Hsig, Hstr.
    rewrite Hsig, Hstr; reflexivity.
  - destruct (classification_rule fmt_2f_py (-2.5) 1.5 "MA5")
      as (_ & _ & _ & Hsig & _ & _ & _ & Hstr & _).
    cbv zeta in Hsig, Hstr.
    rewrite Hsig, Hstr; reflexivity.
  - destruct (classification_rule fmt_2f_py (-3.5) 1.5 "MA5")
      as (_ & _ & _ & Hsig & _ & _ & Hstr & _).
    cbv zeta in Hsig, Hstr.
    rewrite Hsig, Hstr; reflexivity.
  - destruct (classification_rule fmt_2f_py 1.4 1.5 "MA5")
      as (_ & _ & _ & _ & Hsig & _ & _ & _ & _ & Hstr).
    cbv zeta in Hsig, Hstr.
    rewrite Hsig, Hstr; try reflexivity; discriminate.
Defined.

Lemma analyze_raises_iff_empty_witness :
  raises (analyze round2_np fmt_2f_py (__init__ 1.5) [] "600519" "贵州茅台"
            "2024-01-05 15:00:00") /\
  returns (analyze round2_np fmt_2f_py (__init__ 1.5) short_history "600519"
             "贵州茅台" "2024-01-05 15:00:00").
Proof.
  split.
  - apply (proj1 (analyze_raises_iff_empty round2_np fmt_2f_py (__init__ 1.5)
                    [] "600519" "贵州茅台" "2024-01-05 15:00:00")).
    reflexivity.
  - apply (proj2 (proj2 (analyze_raises_iff_empty round2_np fmt_2f_py
                           (__init__ 1.5) short_history "600519" "贵州茅台"
                           "2024-01-05 15:00:00"))).
    discriminate.
Defined.


Lemma analyze_short_history_witness :
  exists result,
    analyze round2_np fmt_2f_py (__init__ 1.5) short_history "600519"
      "贵州茅台" "2024-01-05 15:00:00" = Ok result /\
    signals result = [] /\ overall_signal result = NEUTRAL /\
    confidence result = 0.
Proof.
  apply (analyze_short_history round2_np fmt_2f_py (__init__ 1.5)
           short_history "600519" "贵州茅台" "2024-01-05 15:00:00");
    reflexivity.
Defined.

Lemma analyze_confidence_witness :
  exists result,
    analyze round2_np fmt_2f_py (__init__ 1.5) falling_history "600519"
      "贵州茅台" "2024-01-05 15:00:00" = Ok result /\
    overall_signal result = BUY /\
    20 <= confidence result <= 100.
Proof.
  eexists. split; [vm_compute; reflexivity |].
  split; [reflexivity |].
  eapply (analyze_confidence round2_np fmt_2f_py (__init__ 1.5)
            falling_history "600519" "贵州茅台" "2024-01-05 15:00:00").
  - vm_compute. reflexivity.
  - discriminate.
Defined.


(** ** Where the specification's wording differs from the code *)


(** The report of a NEUTRAL result ends with the overall-signal line: no
    advisory text follows it. *)
Lemma neutral_report_ends_with_overall_line :
  overall_signal neutral_result = NEUTRAL /\
  (forall (fmt_plus_2f str_float : float -> string) (self : MADeviationAnalyzer),
      format_result fmt_plus_2f str_float self neutral_result
      = join_lines
          ["## [分析] 宁德时代 (300750) 均线偏离分析";
           "";
           "**当前价格**: " ++ str_float 100.3%float;
           "**分析时间**: 2024-01-05 15:00:00";
           "";
           "### 偏离详情";
           "";
           "";
           "### 综合判断";
           "";
           "[中性] **综合信号**: 观望 (置信度: 0%)"]).
Proof.
  split; [reflexivity |].
  intros fmt_plus_2f str_float self. reflexivity.
Defined.


(** * Further properties of the code *)

(** ** More on the aggregation *)

Lemma count_side_bool (side side' : Signal) (sigs sigs' : list DeviationSignal) :
  (has_signal side sigs <-> has_signal side' sigs') ->
  (0 <? sum_int (map (fun _ => 1)
          (filter (fun s => Signal_eqb (signal s) side) sigs)))
  = (0 <? sum_int (map (fun _ => 1)
          (filter (fun s => Signal_eqb (signal s) side') sigs'))).
Proof.
  intros Hiff.
  pose proof (count_side_pos side sigs) as H1.
  pose proof (count_side_pos side' sigs') as H2.
  destruct (Z.ltb_spec 0 (sum_int (map (fun _ => 1)
              (filter (fun s => Signal_eqb (signal s) side) sigs))));
    destruct (Z.ltb_spec 0 (sum_int (map (fun _ => 1)
              (filter (fun s => Signal_eqb (signal s) side') sigs'))));
    try reflexivity; exfalso.
  - assert (H3 : has_signal side' sigs') by (apply Hiff, H1; assumption).
    apply H2 in H3. lia.
  - assert (H3 : has_signal side sigs) by (apply Hiff, H2; assumption).
    apply H1 in H3. lia.
Qed.

(** Two lists with the same side weights and the same sides present
    aggregate to the same overall signal. *)
Lemma overall_signal_same (self : MADeviationAnalyzer)
    (sigs sigs' : list DeviationSignal) :
  (forall side, side <> NEUTRAL ->
     side_weight side sigs = side_weight side sigs') ->
  (forall side, side <> NEUTRAL ->
     (has_signal side sigs <-> has_signal side sigs')) ->
  _calculate_overall_signal self sigs = _calculate_overall_signal self sigs'.
Proof.
  intros Hw Hh.
  rewrite !overall_signal_cases. cbv zeta.
  rewrite (Hw BUY), (Hw SELL) by discriminate.
  rewrite (count_side_bool BUY BUY sigs sigs'),
          (count_side_bool SELL SELL sigs sigs')
    by (apply Hh; discriminate).
  reflexivity.
Qed.

Lemma side_weight_perm (side : Signal) (sigs sigs' : list DeviationSignal) :
  Permutation sigs sigs' -> side_weight side sigs = side_weight side sigs'.
Proof.
  intros Hp. induction Hp as [| s l l' _ IH | s s' l | l l' l'' _ IH1 _ IH2];
    simpl; lia.
Qed.

Lemma has_signal_perm (side : Signal) (sigs sigs' : list DeviationSignal) :
  Permutation sigs sigs' -> has_signal side sigs -> has_signal side sigs'.
Proof.
  unfold has_signal. intros Hp Hex.
  apply Exists_exists in Hex. destruct Hex as (s & Hin & Hs).
  apply Exists_exists. exists s. split; [| exact Hs].
  eapply Permutation_in; eassumption.
Qed.

(** X1: the confidence [_calculate_overall_signal] returns is one of 0, 20,
    40, 60, 80 and 100, whatever the signals are. *)
Theorem overall_confidence_steps (self : MADeviationAnalyzer)
    (sigs : list DeviationSignal) :
  exists k, 0 <= k <= 5 /\
            snd (_calculate_overall_signal self sigs) = 20 * k.
Proof.
  rewrite overall_signal_cases. cbv zeta.
  pose proof (side_weight_nonneg BUY sigs) as Hb.
  pose proof (side_weight_nonneg SELL sigs) as Hs.
  assert (Hmin : forall w, 0 <= w ->
            exists k, 0 <= k <= 5 /\ Z.min 100 (w * 20) = 20 * k).
  { intros w Hw. destruct (Z_le_gt_dec w 5).
    - exists w. lia.
    - exists 5. lia. }
  destruct (_ && _); [apply Hmin; exact Hb |].
  destruct (_ && _); [apply Hmin; exact Hs |].
  exists 0. simpl. lia.
Qed.

(** X2: the overall signal and its confidence do not depend on the order
    of the signals. *)
Theorem overall_signal_order (self : MADeviationAnalyzer)
    (sigs sigs' : list DeviationSignal) :
  Permutation sigs sigs' ->
  _calculate_overall_signal self sigs = _calculate_overall_signal self sigs'.
Proof.
  intros Hp. apply overall_signal_same.
  - intros side _. now apply side_weight_perm.
  - intros side _. split; apply has_signal_perm;
      [exact Hp | apply Permutation_sym; exact Hp].
Qed.

(** X3: NEUTRAL signals have no influence: leaving them out of the list
    gives the same overall signal and confidence. *)
Theorem overall_signal_ignores_neutral (self : MADeviationAnalyzer)
    (sigs : list DeviationSignal) :
  _calculate_overall_signal self (filter is_classified sigs)
  = _calculate_overall_signal self sigs.
Proof.
  apply overall_signal_same.
  - intros side Hside. induction sigs as [| s rest IH]; [reflexivity |].
    cbn [filter]. unfold is_classified at 1.
    destruct (signal s) eqn:Hs; cbn [Signal_eqb negb side_weight];
      rewrite ?Hs, IH; try reflexivity.
    destruct side; try reflexivity. contradiction.
  - intros side Hside. unfold has_signal.
    rewrite !Exists_exists. split.
    + intros (s & Hin & Hs). apply filter_In in Hin. exists s. tauto.
    + intros (s & Hin & Hs). exists s. split; [| exact Hs].
      apply filter_In. split; [exact Hin |].
      unfold is_classified. rewrite Hs. destruct side; try reflexivity.
      congruence.
Qed.

Lemma side_weight_flip (side : Signal) (sigs : list DeviationSignal) :
  side_weight (flip_side side) (map flip_signal sigs) = side_weight side sigs.
Proof.
  induction sigs as [| s rest IH]; [reflexivity |].
  simpl. rewrite IH.
  destruct (signal s), side; reflexivity.
Qed.

Lemma has_signal_flip (side : Signal) (sigs : list DeviationSignal) :
  has_signal (flip_side side) (map flip_signal sigs) <-> has_signal side sigs.
Proof.
  unfold has_signal. rewrite !Exists_exists. split.
  - intros (s' & Hin & Hs). apply in_map_iff in Hin.
    destruct Hin as (s & <- & Hin). exists s. split; [exact Hin |].
    simpl in Hs. destruct (signal s), side; try reflexivity; discriminate.
  - intros (s & Hin & Hs). exists (flip_signal s).
    split; [now apply in_map |]. simpl. now rewrite Hs.
Qed.

(** X4: buying and selling are treated alike: moving every signal to the
    other side moves the overall signal to the other side and keeps the
    confidence. *)
Theorem overall_signal_flip (self : MADeviationAnalyzer)
    (sigs : list DeviationSignal) :
  _calculate_overall_signal self (map flip_signal sigs)
  = (flip_side (fst (_calculate_overall_signal self sigs)),
     snd (_calculate_overall_signal self sigs)).
Proof.
  rewrite !overall_signal_cases. cbv zeta.
  pose proof (side_weight_flip SELL sigs) as Hb.
  pose proof (side_weight_flip BUY sigs) as Hs.
  cbn [flip_side] in Hb, Hs. rewrite Hb, Hs.
  rewrite (count_side_bool BUY SELL (map flip_signal sigs) sigs
             (has_signal_flip SELL sigs)).
  rewrite (count_side_bool SELL BUY (map flip_signal sigs) sigs
             (has_signal_flip BUY sigs)).
  pose proof (count_side_pos BUY sigs) as Hcb.
  pose proof (count_side_pos SELL sigs) as Hcs.
  destruct (Z.ltb_spec (side_weight SELL sigs) (side_weight BUY sigs));
    destruct (Z.ltb_spec (side_weight BUY sigs) (side_weight SELL sigs));
    try lia;
    destruct (0 <? sum_int (map (fun _ => 1)
                (filter (fun s => Signal_eqb (signal s) BUY) sigs)));
    destruct (0 <? sum_int (map (fun _ => 1)
                (filter (fun s => Signal_eqb (signal s) SELL) sigs)));
    reflexivity.
Qed.

(** ** More on classification and strength *)

Lemma leb_trans (a b c : float) :
  (a <=? b)%float = true -> (b <=? c)%float = true -> (a <=? c)%float = true.
Proof.
  intros Hab Hbc. apply leb_key in Hab, Hbc. apply leb_key.
  destruct Hab as (Ha & Hb & Hab). destruct Hbc as (_ & Hc & Hbc).
  repeat split; try assumption.
  remember (key a) as ka. remember (key b) as kb. remember (key c) as kc.
  clear Heqka Heqkb Heqkc.
  split_keys. lia.
Qed.

(** Two floats that are not NaN are comparable. *)
Lemma not_leb_ltb (x y : float) :
  is_nan x = false -> is_nan y = false ->
  (x <=? y)%float = false -> (y <? x)%float = true.
Proof.
  intros Hx Hy Hle. apply ltb_key. repeat split; try assumption.
  assert (Hn : ~ (~ key_lt (key y) (key x))).
  { intros Hc. assert ((x <=? y)%float = true) by (apply leb_key; tauto).
    congruence. }
  remember (key x) as kx. remember (key y) as ky. clear Heqkx Heqky.
  split_keys. lia.
Qed.

Lemma nan_not_leb_l (x y : float) :
  is_nan x = true -> (x <=? y)%float = false.
Proof.
  intros Hx. apply not_true_is_false. intros H.
  apply leb_key in H. destruct H as (H & _ & _). congruence.
Qed.

Lemma nan_not_leb_r (x y : float) :
  is_nan y = true -> (x <=? y)%float = false.
Proof.
  intros Hy. apply not_true_is_false. intros H.
  apply leb_key in H. destruct H as (_ & H & _). congruence.
Qed.

Lemma add_nan (t c : float) : is_nan t = true -> is_nan (t + c) = true.
Proof.
  unfold is_nan. rewrite FloatAxioms.add_spec.
  destruct (Prim2SF t); try discriminate. reflexivity.
Qed.

(** Between [-w] and [w], the absolute value is below [w]. *)
Lemma abs_below (w d : float) :
  (d <? w)%float = true -> (- w <? d)%float = true -> (abs d <? w)%float = true.
Proof.
  intros H1 H2. apply ltb_key in H1, H2.
  destruct H1 as (Hd & Hw & H1). destruct H2 as (_ & _ & H2).
  destruct (key_of_opp w) as [Hko _]. rewrite Hko in H2.
  destruct (key_of_abs d) as [Hk Hn].
  apply ltb_key. rewrite Hn. repeat split; try assumption.
  destruct Hk as [[Hk _] | [Hk _]]; rewrite Hk; [exact H1 |].
  remember (key d) as kd. remember (key w) as kw.
  clear Heqkd Heqkw Hk Hko.
  split_keys. lia.
Qed.

Lemma opp_nan (w : float) : is_nan (- w) = is_nan w.
Proof. exact (proj2 (key_of_opp w)). Qed.

Lemma abs_nan (d : float) : is_nan (abs d) = is_nan d.
Proof. exact (proj2 (key_of_abs d)). Qed.

Section MoreClassification.

Variable fmt_2f : float -> string.

(** X5: for an analyzer built from a base threshold, a signal is NEUTRAL
    exactly when its strength is NONE: no unclassified deviation carries a
    strength, and every BUY or SELL signal carries one. *)
Theorem neutral_iff_no_strength (t d : float) (label : string) :
  let sig := generate_signal fmt_2f (__init__ t) d label in
  signal sig = NEUTRAL <-> strength sig = NONE.
Proof.
  intros sig. split.
  - intros Hsig. unfold sig in *.
    rewrite generate_signal_signal in Hsig.
    rewrite generate_signal_strength.
    cbn [THRESHOLDS __init__ weak] in Hsig.
    destruct (t <=? d)%float eqn:H1; [discriminate |].
    destruct (d <=? - t)%float eqn:H2; [discriminate |].
    unfold get_signal_strength. cbn [THRESHOLDS __init__ weak medium strong].
    destruct (is_nan d) eqn:Hd.
    { rewrite !nan_not_leb_r by (rewrite abs_nan; exact Hd). reflexivity. }
    destruct (is_nan t) eqn:Ht.
    { rewrite !nan_not_leb_l by (first [exact Ht | apply add_nan; exact Ht]).
      reflexivity. }
    assert (Hlt : (abs d <? t)%float = true).
    { apply abs_below.
      - apply not_leb_ltb; assumption.
      - apply not_leb_ltb; try assumption. rewrite opp_nan. exact Ht. }
    destruct (tiers_ascend t Ht) as [Hwm Hms].
    assert (Hws : (t <=? t + 2.0)%float = true)
      by exact (leb_trans _ _ _ Hwm Hms).
    rewrite (ltb_leb_not_leb _ _ _ Hlt Hws), (ltb_leb_not_leb _ _ _ Hlt Hwm),
      (ltb_not_leb _ _ Hlt).
    reflexivity.
  - intros Hstr.
    assert (Hw : signal sig <> NEUTRAL -> 1 <= strength_weights (strength sig))
      by exact (classified_has_weight fmt_2f (__init__ t) d label).
    rewrite Hstr in Hw. cbn [strength_weights] in Hw.
    destruct (signal sig); try reflexivity;
      (assert (1 <= 0) by (apply Hw; discriminate); lia).
Qed.

(** X6: a deviation that is larger in size never gets a weaker strength,
    whatever the thresholds are. *)
Theorem strength_monotone (self : MADeviationAnalyzer) (d1 d2 : float) :
  fle (abs d1) (abs d2) ->
  strength_weights (get_signal_strength self d1)
  <= strength_weights (get_signal_strength self d2).
Proof.
  unfold fle. intros Hle. unfold get_signal_strength.
  assert (Hup : forall w, (w <=? abs d1)%float = true ->
                          (w <=? abs d2)%float = true)
    by (intros w Hw; exact (leb_trans _ _ _ Hw Hle)).
  pose proof (Hup (strong (THRESHOLDS self))) as Hs.
  pose proof (Hup (medium (THRESHOLDS self))) as Hm.
  pose proof (Hup (weak (THRESHOLDS self))) as Hw.
  destruct (strong (THRESHOLDS self) <=? abs d1)%float;
    [rewrite (Hs eq_refl); simpl; lia |].
  destruct (medium (THRESHOLDS self) <=? abs d1)%float;
    [rewrite (Hm eq_refl);
     destruct (strong (THRESHOLDS self) <=? abs d2)%float; simpl; lia |].
  destruct (weak (THRESHOLDS self) <=? abs d1)%float;
    [rewrite (Hw eq_refl) |];
    destruct (strong (THRESHOLDS self) <=? abs d2)%float;
    destruct (medium (THRESHOLDS self) <=? abs d2)%float;
    try destruct (weak (THRESHOLDS self) <=? abs d2)%float;
    simpl; lia.
Qed.

End MoreClassification.

(** ** The sign of a deviation *)

Lemma shr_1_nonneg (mrs : shr_record) :
  0 <= shr_m mrs -> 0 <= shr_m (shr_1 mrs).
Proof.
  destruct mrs as [m r s]. cbn [shr_m]. intros Hm.
  destruct m as [| p | p]; [| destruct p |]; cbn [shr_1 shr_m]; lia.
Qed.

Lemma iter_shr_nonneg (p : positive) :
  forall mrs, 0 <= shr_m mrs -> 0 <= shr_m (iter_pos shr_1 p mrs).
Proof.
  induction p as [p IH | p IH |]; intros mrs Hm; cbn [iter_pos].
  - apply IH, IH. now apply shr_1_nonneg.
  - now apply IH, IH.
  - now apply shr_1_nonneg.
Qed.

Lemma shr_fexp_nonneg (m e : Z) (l : location) :
  0 <= m -> 0 <= shr_m (fst (shr_fexp prec emax m e l)).
Proof.
  intros Hm. unfold shr_fexp, shr.
  assert (H0 : 0 <= shr_m (shr_record_of_loc m l))
    by (destruct l as [| []]; exact Hm).
  destruct (fexp prec emax (Zdigits2 m + e) - e) as [| p | p]; cbn [fst];
    try exact H0.
  now apply iter_shr_nonneg.
Qed.

Lemma round_nearest_even_nonneg (m : Z) (l : location) :
  0 <= m -> 0 <= round_nearest_even m l.
Proof.
  intros Hm. destruct l as [| []]; cbn [round_nearest_even];
    try destruct (Z.even m); lia.
Qed.

(** Rounding a non-negative mantissa gives a float of the requested sign. *)
Lemma binary_round_aux_signed (s : bool) (mx ex : Z) (lx : location) :
  0 <= mx -> signed_as s (binary_round_aux prec emax s mx ex lx).
Proof.
  intros Hm. unfold binary_round_aux.
  pose proof (shr_fexp_nonneg mx ex lx Hm) as H1.
  destruct (shr_fexp prec emax mx ex lx) as [mrs' e']. cbn [fst] in H1.
  pose proof (shr_fexp_nonneg
                (round_nearest_even (shr_m mrs') (loc_of_shr_record mrs')) e'
                loc_Exact (round_nearest_even_nonneg _ _ H1)) as H2.
  destruct (shr_fexp prec emax _ e' loc_Exact) as [mrs'' e'']. cbn [fst] in H2.
  unfold signed_as.
  destruct (shr_m mrs'') as [| m | m]; [left; reflexivity | | lia].
  destruct (e'' <=? emax - prec); [right; right; eauto | right; left; reflexivity].
Qed.

Lemma SF64div_signed (s : bool) (x : spec_float) (my : positive) (ey : Z) :
  signed_as s x -> signed_as s (SF64div x (S754_finite false my ey)).
Proof.
  intros [-> | [-> | (m & e & ->)]]; unfold SF64div, SFdiv;
    rewrite ?xorb_false_r.
  - left; reflexivity.
  - right; left; reflexivity.
  - unfold SFdiv_core_binary.
    set (e' := Z.min _ _). set (m' := match _ with Z0 => _ | _ => _ end).
    assert (Hm' : 0 <= m').
    { subst m'. destruct (e - ey - e'); try lia.
      apply Z.shiftl_nonneg. lia. }
    pose proof (Z_div_mod m' (Zpos my) eq_refl) as Hdm.
    destruct (Z.div_eucl m' (Zpos my)) as [q r].
    apply binary_round_aux_signed.
    destruct Hdm as [Heq Hr]. nia.
Qed.

Lemma SF64mul_signed (s : bool) (x : spec_float) (my : positive) (ey : Z) :
  signed_as s x -> signed_as s (SF64mul x (S754_finite false my ey)).
Proof.
  intros [-> | [-> | (m & e & ->)]]; unfold SF64mul, SFmul;
    rewrite ?xorb_false_r.
  - left; reflexivity.
  - right; left; reflexivity.
  - apply binary_round_aux_signed. lia.
Qed.

(** The difference of two finite floats has the sign of the exact
    difference. *)
Lemma SF64sub_signed (sx sy : bool) (mx my : positive) (ex ey : Z) :
  valid_binary (S754_finite sx mx ex) = true ->
  valid_binary (S754_finite sy my ey) = true ->
  let x := S754_finite sx mx ex in
  let y := S754_finite sy my ey in
  (sf_val y < sf_val x -> signed_as false (SF64sub x y)) /\
  (sf_val x < sf_val y -> signed_as true (SF64sub x y)).
Proof.
  intros Hx Hy x y.
  pose proof (valid_finite _ _ _ Hx) as (Hex & _ & _).
  pose proof (valid_finite _ _ _ Hy) as (Hey & _ & _).
  unfold x, y, SF64sub, SFsub.
  set (ez := Z.min ex ey).
  assert (Hez : -1074 <= ez) by (unfold ez; lia).
  destruct (shl_align_le mx ex ez) as (Mx & Hax & HMx); [unfold ez; lia |].
  destruct (shl_align_le my ey ez) as (My & Hay & HMy); [unfold ez; lia |].
  rewrite Hax, Hay. cbn [fst].
  assert (Hsx : Zpos mx * scale ex = Zpos Mx * scale ez).
  { replace ex with (ez + (ex - ez)) at 1 by lia.
    rewrite scale_add by (unfold ez; lia). rewrite HMx. ring. }
  assert (Hsy : Zpos my * scale ey = Zpos My * scale ez).
  { replace ey with (ez + (ey - ez)) at 1 by lia.
    rewrite scale_add by (unfold ez; lia). rewrite HMy. ring. }
  assert (HX : sf_val (S754_finite sx mx ex) - sf_val (S754_finite sy my ey)
               = (cond_Zopp sx (Zpos Mx) - cond_Zopp sy (Zpos My)) * scale ez).
  { unfold sf_val. cbn [sf_sign sf_mag]. rewrite Hsx, Hsy.
    destruct sx, sy; cbn [cond_Zopp]; ring. }
  pose proof (scale_pos ez Hez) as Hsc.
  destruct (cond_Zopp sx (Zpos Mx) - cond_Zopp sy (Zpos My)) as [| p | p];
    cbn [binary_normalize]; split; intros Hlt; try (exfalso; nia).
  - destruct (binary_round_nearest false p ez (S754_zero false) Hez eq_refl)
      as [Hshape _].
    unfold signed_as. tauto.
  - destruct (binary_round_nearest true p ez (S754_zero false) Hez eq_refl)
      as [Hshape _].
    unfold signed_as. tauto.
Qed.

Lemma positive_finite (x : float) :
  (0 <? x)%float = true -> finite_float x = true ->
  exists m e, Prim2SF x = S754_finite false m e.
Proof.
  intros Hpos Hfin. apply ltb_key in Hpos. destruct Hpos as (_ & _ & Hpos).
  change (key 0) with (0, 0, 0) in Hpos.
  unfold key in Hpos. unfold finite_float in Hfin.
  destruct (Prim2SF x) as [s | s | | [|] m e]; try discriminate;
    cbn [sf_key] in Hpos; unfold key_lt in Hpos; try lia.
  eauto.
Qed.

Lemma signed_key (s : bool) (d : float) :
  signed_as s (Prim2SF d) ->
  is_nan d = false /\
  (if s then fst (fst (key d)) <= 0 else 0 <= fst (fst (key d))).
Proof.
  unfold is_nan, key.
  intros [-> | [-> | (m & e & ->)]]; destruct s; cbn; split;
    try reflexivity; lia.
Qed.

Lemma positive_key (w : float) :
  (0 <? w)%float = true -> is_nan w = false /\ 1 <= fst (fst (key w)).
Proof.
  intros Hpos. apply ltb_key in Hpos. destruct Hpos as (_ & Hn & Hpos).
  change (key 0) with (0, 0, 0) in Hpos.
  split; [exact Hn |].
  pose proof (key_zero_class w) as Hz.
  destruct (key w) as [[c e] m]. cbn [fst] in *. unfold key_lt in Hpos.
  destruct (Z.eq_dec c 0) as [Hc | Hc]; [| lia].
  specialize (Hz Hc). inversion Hz. subst. lia.
Qed.

(** A deviation that is not negative is not at or below [-w] for a
    positive [w], and one that is not positive is not at or above [w]. *)
Lemma signed_not_classified (w d : float) :
  (0 <? w)%float = true ->
  (signed_as false (Prim2SF d) -> (d <=? - w)%float = false) /\
  (signed_as true (Prim2SF d) -> (w <=? d)%float = false).
Proof.
  intros Hpos. destruct (positive_key w Hpos) as [Hnw Hcw].
  destruct (key_of_opp w) as [Hko _].
  split; intros Hs; apply signed_key in Hs; destruct Hs as [Hnd Hcd];
    apply not_true_is_false; intros H; apply leb_key in H;
    destruct H as (_ & _ & H); try rewrite Hko in H;
    destruct (key w) as [[cw ew] mw]; destruct (key d) as [[cd ed] md];
    cbn [fst] in *; unfold key_lt, key_opp in H; lia.
Qed.

Lemma signed_vs_zero (d : float) :
  (signed_as false (Prim2SF d) -> (0 <=? d)%float = true) /\
  (signed_as true (Prim2SF d) -> (d <=? 0)%float = true).
Proof.
  split; intros [H | [H | (m & e & H)]];
    rewrite FloatAxioms.leb_spec, H; reflexivity.
Qed.

(** The deviation of a price from a positive average, as a float. *)
Lemma deviation_signed (cp ma : float) :
  (0 <? ma)%float = true -> finite_float ma = true ->
  ((ma <? cp)%float = true ->
     signed_as false (Prim2SF ((cp - ma) / ma * 100))) /\
  ((cp <? ma)%float = true ->
     signed_as true (Prim2SF ((cp - ma) / ma * 100))).
Proof.
  intros Hpos Hfin.
  destruct (positive_finite ma Hpos Hfin) as (mm & em & Hma).
  assert (H100 : exists m e, Prim2SF 100 = S754_finite false m e)
    by (do 2 eexists; vm_compute; reflexivity).
  destruct H100 as (m100 & e100 & H100).
  assert (Hvm : valid_binary (S754_finite false mm em) = true)
    by (rewrite <- Hma; apply Prim2SF_valid).
  assert (Hstep : forall s, signed_as s (SF64sub (Prim2SF cp) (Prim2SF ma)) ->
                            signed_as s (Prim2SF ((cp - ma) / ma * 100))).
  { intros s Hs.
    rewrite FloatAxioms.mul_spec, FloatAxioms.div_spec, FloatAxioms.sub_spec,
      H100.
    apply SF64mul_signed. rewrite Hma at 2. apply SF64div_signed. exact Hs. }
  split; intros Hlt; apply Hstep; apply ltb_key in Hlt;
    destruct Hlt as (Hn1 & Hn2 & Hlt); unfold key, is_nan in *;
    rewrite Hma in *;
    pose proof (Prim2SF_valid cp) as Hvc;
    destruct (Prim2SF cp) as [sc | sc | | sc mc ec] eqn:Hcp;
    try discriminate.
  - cbn [sf_key] in Hlt. unfold key_lt in Hlt. lia.
  - destruct sc; cbn [sf_key] in Hlt; unfold key_lt in Hlt; try lia.
    right; left; reflexivity.
  - apply key_lt_val in Hlt; try assumption; try reflexivity.
    now apply (SF64sub_signed sc false mc mm ec em Hvc Hvm).
  - right; right. do 2 eexists. reflexivity.
  - destruct sc; cbn [sf_key] in Hlt; unfold key_lt in Hlt; try lia.
    right; left; reflexivity.
  - apply key_lt_val in Hlt; try assumption; try reflexivity.
    now apply (SF64sub_signed sc false mc mm ec em Hvc Hvm).
Qed.

Section Direction.

Variable fmt_2f : float -> string.

(** X7: with a positive, finite moving average and a positive weak
    threshold the signal follows the direction of the price: a price above
    the average has a deviation >= 0 and is never classified BUY, and a
    price below the average has a deviation <= 0 and is never classified
    SELL. *)
Theorem deviation_direction (self : MADeviationAnalyzer) (cp ma : float)
    (label : string) :
  flt 0 ma -> finite_float ma = true -> flt 0 (weak (THRESHOLDS self)) ->
  exists d,
    calculate_deviation self cp ma = Ok d /\
    (flt ma cp ->
       fge d 0 /\ signal (generate_signal fmt_2f self d label) <> BUY) /\
    (flt cp ma ->
       fle d 0 /\ signal (generate_signal fmt_2f self d label) <> SELL).
Proof.
  unfold flt, fge, fle. intros Hpos Hfin Hw.
  exists ((cp - ma) / ma * 100)%float.
  split.
  - apply calculate_deviation_nonzero.
    destruct (positive_finite ma Hpos Hfin) as (mm & em & Hma).
    rewrite FloatAxioms.eqb_spec, Hma. reflexivity.
  - destruct (deviation_signed cp ma Hpos Hfin) as [Hup Hdown].
    destruct (signed_vs_zero ((cp - ma) / ma * 100)) as [Hz1 Hz2].
    destruct (signed_not_classified (weak (THRESHOLDS self))
                ((cp - ma) / ma * 100) Hw) as [Hc1 Hc2].
    split; intros Hlt; rewrite generate_signal_signal.
    + specialize (Hup Hlt). split; [now apply Hz1 |].
      rewrite (Hc1 Hup).
      destruct (weak (THRESHOLDS self) <=? _)%float; discriminate.
    + specialize (Hdown Hlt). split; [now apply Hz2 |].
      rewrite (Hc2 Hdown).
      destruct (_ <=? - weak (THRESHOLDS self))%float; discriminate.
Qed.

End Direction.

(** ** More on [analyze] *)

Lemma sorted_last_greatest (df : DataFrame) (r : Row) :
  Sorted date_le df -> iloc_last df = Ok r ->
  forall r', In r' df -> date r' <= date r.
Proof.
  intros Hs Hlast. unfold iloc_last in Hlast.
  destruct (rev df) as [|x rest] eqn:E; [discriminate |].
  injection Hlast as ->.
  assert (Hdf : df = (rev rest ++ [r])%list).
  { rewrite <- (rev_involutive df), E. reflexivity. }
  apply Sorted_StronglySorted in Hs;
    [| intros a b c; unfold date_le; lia].
  rewrite Hdf in Hs |- *. clear Hdf E.
  induction (rev rest) as [|a l IH]; intros r' Hin.
  - simpl in Hin. destruct Hin as [<- | []]. lia.
  - simpl in Hs. inversion Hs as [| ? ? Hs' Hall]; subst.
    destruct Hin as [<- | Hin].
    + rewrite Forall_forall in Hall. apply Hall.
      apply in_or_app. right. now left.
    + apply IH; assumption.
Qed.

Lemma NoDup_map_inj {A B : Type} (f : A -> B) (l : list A) (a b : A) :
  NoDup (map f l) -> In a l -> In b l -> f a = f b -> a = b.
Proof.
  induction l as [|x l IH]; simpl; intros Hnd Ha Hb Hf; [contradiction |].
  inversion Hnd as [| ? ? Hnotin Hnd']; subst.
  destruct Ha as [-> | Ha]; destruct Hb as [-> | Hb].
  - reflexivity.
  - exfalso. apply Hnotin. rewrite Hf. now apply in_map.
  - exfalso. apply Hnotin. rewrite <- Hf. now apply in_map.
  - now apply IH.
Qed.

(** Two date-sorted lists of the same rows are equal when no date occurs
    twice. *)
Lemma sorted_unique (l1 l2 : DataFrame) :
  StronglySorted date_le l1 -> StronglySorted date_le l2 ->
  NoDup (map date l1) -> Permutation l1 l2 -> l1 = l2.
Proof.
  revert l2. induction l1 as [|a t1 IH]; intros l2 Hs1 Hs2 Hnd Hp.
  - apply Permutation_nil in Hp. now subst.
  - destruct l2 as [|b t2].
    + apply Permutation_sym, Permutation_nil in Hp. discriminate.
    + inversion Hs1 as [| ? ? Hs1' Hall1]; subst.
      inversion Hs2 as [| ? ? Hs2' Hall2]; subst.
      assert (Hab : a = b).
      { assert (Ha : In a (b :: t2))
          by (apply (Permutation_in _ Hp); now left).
        assert (Hb : In b (a :: t1))
          by (apply (Permutation_in _ (Permutation_sym Hp)); now left).
        destruct Ha as [Ha | Ha]; [now symmetry |].
        destruct Hb as [Hb | Hb]; [exact Hb |].
        rewrite Forall_forall in Hall1, Hall2.
        specialize (Hall1 b Hb). specialize (Hall2 a Ha).
        unfold date_le in *.
        apply (NoDup_map_inj date (a :: t1)); try assumption.
        - now left.
        - now right.
        - lia. }
      subst b. f_equal.
      apply IH; try assumption.
      * simpl in Hnd. now inversion Hnd.
      * now apply Permutation_cons_inv in Hp.
Qed.

Lemma sort_values_order (df df' : DataFrame) :
  Permutation df df' -> NoDup (map date df) ->
  sort_values df = sort_values df'.
Proof.
  intros Hp Hnd.
  apply sorted_unique.
  - apply Sorted_StronglySorted; [| apply sort_values_sorted].
    intros a b c; unfold date_le; lia.
  - apply Sorted_StronglySorted; [| apply sort_values_sorted].
    intros a b c; unfold date_le; lia.
  - eapply Permutation_NoDup; [| exact Hnd].
    apply Permutation_map, sort_values_perm.
  - eapply perm_trans; [apply Permutation_sym, sort_values_perm |].
    eapply perm_trans; [exact Hp | apply sort_values_perm].
Qed.

Lemma sorted_app_bound (acc df : DataFrame) (a : Row) :
  StronglySorted date_le (acc ++ a :: df) ->
  Forall (fun x => date x <= date a) acc.
Proof.
  induction acc as [|x acc IH]; simpl; intros Hs; [constructor |].
  inversion Hs as [| ? ? Hs' Hall]; subst.
  constructor; [| now apply IH].
  rewrite Forall_forall in Hall. apply Hall.
  apply in_or_app. right. now left.
Qed.

Lemma insert_by_date_last (r : Row) (df : DataFrame) :
  Forall (fun x => date x <= date r) df ->
  insert_by_date r df = (df ++ [r])%list.
Proof.
  induction 1 as [| x df Hx _ IH]; simpl; [reflexivity |].
  destruct (Z.ltb_spec (date r) (date x)); [lia |].
  now rewrite IH.
Qed.

(** Sorting leaves a history that is already in date order as it is. *)
Lemma sort_from_sorted_id (df acc : DataFrame) :
  StronglySorted date_le (acc ++ df) ->
  fold_left (fun acc r => insert_by_date r acc) df acc = (acc ++ df)%list.
Proof.
  revert acc. induction df as [|a df IH]; intros acc Hs; simpl.
  - now rewrite app_nil_r.
  - rewrite insert_by_date_last by (eapply sorted_app_bound; exact Hs).
    rewrite IH; rewrite <- app_assoc; [reflexivity | exact Hs].
Qed.

Lemma test_rows_sorted (prices : list float) (k : nat) :
  let rows := map (fun ic : nat * float => mkRow (Z.of_nat (fst ic)) (snd ic))
                  (combine (seq k (List.length prices)) prices) in
  StronglySorted date_le rows /\
  Forall (fun r => Z.of_nat k <= date r) rows /\
  NoDup (map date rows) /\
  close_column rows = prices.
Proof.
  revert k. induction prices as [|p prices IH]; intros k;
    cbn [List.length seq combine map]; cbv zeta.
  - repeat split; constructor.
  - destruct (IH (S k)) as (Hs & Hb & Hnd & Hc). cbv zeta in Hs, Hb, Hnd, Hc.
    rewrite Nat2Z.inj_succ in Hb.
    repeat split.
    + constructor; [exact Hs |].
      eapply Forall_impl; [| exact Hb].
      intros r Hr. unfold date_le. cbn [date fst]. cbv beta in Hr. lia.
    + constructor; [cbn [date fst]; lia |].
      eapply Forall_impl; [| exact Hb]. intros r Hr. cbv beta in Hr. lia.
    + constructor; [| exact Hnd].
      intros Hin. apply in_map_iff in Hin. destruct Hin as (r & Hr & Hin).
      rewrite Forall_forall in Hb. specialize (Hb r Hin).
      cbn [date fst] in Hr. lia.
    + unfold close_column in *. cbn [map close snd]. now rewrite Hc.
Qed.

(** X12: the closes the analyzer sees in a frame built by
    [create_test_data] are the given prices in the given order: the frame
    has one row per price, its dates are distinct, sorting by date leaves
    it unchanged and its close column is the list of prices. *)
Theorem create_test_data_round_trip (prices : list float) :
  len (create_test_data prices) = len prices /\
  NoDup (map date (create_test_data prices)) /\
  sort_values (create_test_data prices) = create_test_data prices /\
  close_column (sort_values (create_test_data prices)) = prices.
Proof.
  destruct (test_rows_sorted prices 1) as (Hs & _ & Hnd & Hc).
  cbv zeta in Hs, Hnd, Hc. fold (create_test_data prices) in Hs, Hnd, Hc.
  assert (Hid : sort_values (create_test_data prices) = create_test_data prices).
  { unfold sort_values. now rewrite sort_from_sorted_id. }
  repeat split.
  - unfold len. f_equal. rewrite <- Hc at 2.
    unfold close_column. now rewrite length_map.
  - exact Hnd.
  - exact Hid.
  - rewrite Hid. exact Hc.
Qed.

Section MoreAnalyze.

Variable round2 : float -> float.
Variable fmt_2f : float -> string.

Lemma generate_signal_ma_type (self : MADeviationAnalyzer) (d : float)
    (label : string) :
  ma_type (generate_signal fmt_2f self d label) = label.
Proof.
  unfold generate_signal.
  destruct (weak (THRESHOLDS self) <=? d)%float;
    [| destruct (d <=? - weak (THRESHOLDS self))%float]; reflexivity.
Qed.

(** What [analyze] computed when it returned. *)
Lemma analyze_inv (self : MADeviationAnalyzer) (df : DataFrame)
    (stock_code stock_name now : string) (result : DeviationAnalysisResult) :
  analyze round2 fmt_2f self df stock_code stock_name now = Ok result ->
  exists last_row,
    iloc_last (sort_values df) = Ok last_row /\
    analyze_loop round2 fmt_2f self (sort_values df) (close last_row)
      ma_periods ([], []) = Ok (signals result, raw_data result) /\
    result_current_price result = round2 (close last_row) /\
    (overall_signal result, confidence result)
      = _calculate_overall_signal self (signals result) /\
    code result = stock_code /\ name result = stock_name /\
    analysis_time result = now.
Proof.
  unfold analyze.
  destruct (len (sort_values df) =? 0); [discriminate |].
  destruct (iloc_last (sort_values df)) as [last_row | e]; cbn [bind];
    [| discriminate].
  destruct (analyze_loop round2 fmt_2f self (sort_values df)
              (close last_row) ma_periods ([], [])) as [[sigs raw] | e]
    eqn:Hloop; cbn [bind]; [| discriminate].
  destruct (_calculate_overall_signal self sigs) as [o c] eqn:Ho.
  intros H. injection H as <-.
  exists last_row.
  cbn [signals raw_data result_current_price overall_signal confidence
       code name analysis_time].
  rewrite Hloop, Ho. repeat split.
Qed.

(** The loop appends one signal per period the history is long enough
    for, labelled by the period, carrying the rounded current price, and
    mirrors it in [raw_data]. *)
Lemma analyze_loop_shape (self : MADeviationAnalyzer) (df : DataFrame)
    (cp : float) (periods : list Z)
    (st : list DeviationSignal * list (string * RawEntry)) :
  exists st',
    analyze_loop round2 fmt_2f self df cp periods st = Ok st' /\
    map ma_type (fst st')
      = app (map ma_type (fst st))
            (map (fun period => "MA" ++ str_int period)
                 (filter (fun period => period <=? len df) periods)) /\
    (snd st = map (raw_entry_of round2) (fst st) ->
     snd st' = map (raw_entry_of round2) (fst st')) /\
    (Forall (fun s => current_price s = round2 cp) (fst st) ->
     Forall (fun s => current_price s = round2 cp) (fst st')).
Proof.
  revert st. induction periods as [|period rest IH]; intros st.
  - exists st. simpl. rewrite app_nil_r. repeat split; auto.
  - cbn [analyze_loop filter].
    destruct (Z.lt_ge_cases (len df) period) as [Hlt | Hge].
    + rewrite analyze_period_skip by exact Hlt. cbn [bind].
      destruct (Z.leb_spec period (len df)); [lia |].
      apply IH.
    + destruct st as [sigs raw].
      unfold analyze_period.
      destruct (Z.ltb_spec (len df) period); [lia |].
      destruct (Z.leb_spec period (len df)); [| lia].
      destruct (calculate_deviation_returns self cp
                  (calculate_ma self (close_column df) period)) as [d Hd].
      rewrite Hd. cbn [bind].
      match goal with
      | |- context [analyze_loop _ _ _ _ _ _ ?s] =>
          destruct (IH s) as (st' & Hloop & Hlab & Hraw & Hcp)
      end.
      exists st'. split; [exact Hloop |].
      cbn [fst snd] in *. repeat split.
      * rewrite Hlab, map_app. cbn [map].
        rewrite <- app_assoc. cbn [app]. unfold fill_in. cbn [ma_type].
        now rewrite generate_signal_ma_type.
      * intros Hst. apply Hraw. rewrite map_app, Hst. cbn [map].
        unfold raw_entry_of, fill_in. cbn.
        now rewrite generate_signal_ma_type, generate_signal_deviation.
      * intros Hst. apply Hcp. apply Forall_app. split; [exact Hst |].
        constructor; [reflexivity | constructor].
Qed.

(** X8: in a result of [analyze] there is exactly one signal for each
    period of 5, 10, 20, 60 that the history is long enough for, in that
    order and labelled MA5, MA10, MA20, MA60; every signal carries the
    rounded current price of the result; and [raw_data] mirrors the
    signals: same keys in the same order, the same average, signal and
    strength, and the rounded deviation. *)
Theorem analyze_signals_shape (self : MADeviationAnalyzer) (df : DataFrame)
    (stock_code stock_name now : string) (result : DeviationAnalysisResult) :
  analyze round2 fmt_2f self df stock_code stock_name now = Ok result ->
  map ma_type (signals result)
    = map (fun period => "MA" ++ str_int period) (evaluated_periods (len df)) /\
  Forall (fun s => current_price s = result_current_price result)
         (signals result) /\
  raw_data result = map (raw_entry_of round2) (signals result).
Proof.
  intros Hres.
  destruct (analyze_inv self df stock_code stock_name now result Hres)
    as (last_row & _ & Hloop & Hprice & _).
  destruct (analyze_loop_shape self (sort_values df) (close last_row)
              ma_periods ([], [])) as (st' & Hloop' & Hlab & Hraw & Hcp).
  rewrite Hloop in Hloop'. injection Hloop' as <-.
  cbn [fst snd] in *.
  rewrite sort_values_len in Hlab.
  repeat split.
  - exact Hlab.
  - rewrite Hprice. apply Hcp. constructor.
  - apply Hraw. reflexivity.
Qed.

(** X9: the current price of a result is the (rounded) close of a row of
    the history whose date is the greatest, wherever that row stands in
    the history. *)
Theorem analyze_current_price_latest (self : MADeviationAnalyzer)
    (df : DataFrame) (stock_code stock_name now : string)
    (result : DeviationAnalysisResult) :
  analyze round2 fmt_2f self df stock_code stock_name now = Ok result ->
  exists r,
    In r df /\
    (forall r', In r' df -> date r' <= date r) /\
    result_current_price result = round2 (close r).
Proof.
  intros Hres.
  destruct (analyze_inv self df stock_code stock_name now result Hres)
    as (last_row & Hlast & _ & Hprice & _).
  exists last_row. repeat split.
  - apply (Permutation_in _ (Permutation_sym (sort_values_perm df))).
    now apply iloc_last_in.
  - intros r' Hin.
    apply (sorted_last_greatest (sort_values df));
      [apply sort_values_sorted | exact Hlast |].
    now apply (Permutation_in _ (sort_values_perm df)).
  - exact Hprice.
Qed.

(** X10: the order of the rows does not matter: two histories with the
    same rows, no two of them on one date, get the same result (or the
    same error). *)
Theorem analyze_row_order (self : MADeviationAnalyzer) (df df' : DataFrame)
    (stock_code stock_name now : string) :
  Permutation df df' -> NoDup (map date df) ->
  analyze round2 fmt_2f self df stock_code stock_name now
  = analyze round2 fmt_2f self df' stock_code stock_name now.
Proof.
  intros Hp Hnd. unfold analyze.
  now rewrite (sort_values_order df df' Hp Hnd).
Qed.

(** X11: in a result of [analyze] the classification and the strength of
    every signal are functions of its own deviation and the thresholds:
    the strength is [get_signal_strength] of the deviation, the signal is
    SELL exactly when the deviation is at least weak, and BUY exactly
    when it is not but the deviation is at most -weak. *)
Theorem analyze_signals_consistent (self : MADeviationAnalyzer)
    (df : DataFrame) (stock_code stock_name now : string)
    (result : DeviationAnalysisResult) :
  analyze round2 fmt_2f self df stock_code stock_name now = Ok result ->
  Forall (fun s =>
            strength s = get_signal_strength self (deviation_pct s) /\
            (signal s = SELL <->
               fge (deviation_pct s) (weak (THRESHOLDS self))) /\
            (signal s = BUY <->
               ~ fge (deviation_pct s) (weak (THRESHOLDS self)) /\
               fle (deviation_pct s) (- weak (THRESHOLDS self))))
         (signals result).
Proof.
  intros Hres.
  assert (Hne : df <> []).
  { intros H. subst df. rewrite analyze_empty in Hres. discriminate. }
  destruct (analyze_nonempty round2 fmt_2f
              (fun s =>
                 strength s = get_signal_strength self (deviation_pct s) /\
                 (signal s = SELL <->
                    fge (deviation_pct s) (weak (THRESHOLDS self))) /\
                 (signal s = BUY <->
                    ~ fge (deviation_pct s) (weak (THRESHOLDS self)) /\
                    fle (deviation_pct s) (- weak (THRESHOLDS self))))
              self df stock_code stock_name now Hne)
    as (result' & Hres' & Hall & _).
  - intros last_row period d _ _ _ _.
    destruct (period_signal_fields round2 fmt_2f self (sort_values df)
                (close last_row) period d) as (Hs & Hst & Hd).
    rewrite Hs, Hst, Hd, generate_signal_strength, generate_signal_signal.
    unfold fge, fle.
    destruct (weak (THRESHOLDS self) <=? d)%float;
      destruct (d <=? - weak (THRESHOLDS self))%float;
      repeat split; try congruence; try tauto;
      intros [? ?]; congruence.
  - assert (result' = result) by congruence. now subst.
Qed.

End MoreAnalyze.

(** ** NaN and the symmetry of the classification *)

Lemma leb_opp_swap (x y : float) :
  (x <=? - y)%float = (y <=? - x)%float.
Proof.
  apply eq_true_iff_eq. rewrite !leb_key.
  destruct (key_of_opp x) as [Hkx Hnx]. destruct (key_of_opp y) as [Hky Hny].
  rewrite Hkx, Hnx, Hky, Hny.
  remember (key x) as kx. remember (key y) as ky. clear Heqkx Heqky Hkx Hky.
  split_keys. intuition lia.
Qed.

Lemma leb_opp_opp (x y : float) :
  (- x <=? - y)%float = (y <=? x)%float.
Proof.
  apply eq_true_iff_eq. rewrite !leb_key.
  destruct (key_of_opp x) as [Hkx Hnx]. destruct (key_of_opp y) as [Hky Hny].
  rewrite Hkx, Hnx, Hky, Hny.
  remember (key x) as kx. remember (key y) as ky. clear Heqkx Heqky Hkx Hky.
  split_keys. intuition lia.
Qed.

Lemma leb_abs_opp (w d : float) :
  (w <=? abs (- d))%float = (w <=? abs d)%float.
Proof.
  rewrite !FloatAxioms.leb_spec, !FloatAxioms.abs_spec, FloatAxioms.opp_spec.
  destruct (Prim2SF d); reflexivity.
Qed.

(** The deviation of a NaN price is [0.0] (zero average) or NaN. *)
Lemma nan_price_deviation (self : MADeviationAnalyzer) (cp ma : float) :
  is_nan cp = true ->
  exists d, calculate_deviation self cp ma = Ok d /\
            (d = 0.0%float \/ is_nan d = true).
Proof.
  intros Hcp. destruct (ma =? 0)%float eqn:Hz.
  - exists 0.0%float. split; [now apply calculate_deviation_zero | now left].
  - eexists. split; [now apply calculate_deviation_nonzero | right].
    unfold is_nan in *.
    rewrite FloatAxioms.mul_spec, FloatAxioms.div_spec, FloatAxioms.sub_spec.
    destruct (Prim2SF cp); try discriminate.
    destruct (Prim2SF ma) as [[|] | [|] | | [|] m e]; reflexivity.
Qed.

Section Robustness.

Variable round2 : float -> float.
Variable fmt_2f : float -> string.

(** X13: a NaN deviation is never classified: [generate_signal] makes it
    NEUTRAL with strength NONE, whatever the thresholds are. *)
Theorem nan_deviation_neutral (self : MADeviationAnalyzer) (d : float)
    (label : string) :
  is_nan d = true ->
  signal (generate_signal fmt_2f self d label) = NEUTRAL /\
  strength (generate_signal fmt_2f self d label) = NONE.
Proof.
  intros Hd.
  rewrite generate_signal_signal, generate_signal_strength.
  rewrite (nan_not_leb_r _ d Hd), (nan_not_leb_l d _ Hd).
  split; [reflexivity |].
  unfold get_signal_strength.
  assert (Ha : is_nan (abs d) = true) by now rewrite abs_nan.
  now rewrite !(nan_not_leb_r _ (abs d) Ha).
Qed.

(** X14: a NaN in the latest close never produces a trade signal: under
    a positive weak threshold, when every row of the greatest date has a
    NaN close, [analyze] returns a result whose signals are all NEUTRAL
    and whose overall signal is NEUTRAL with confidence 0, whatever the
    moving averages are. *)
Theorem nan_price_neutral (self : MADeviationAnalyzer) (df : DataFrame)
    (stock_code stock_name now : string) :
  flt 0 (weak (THRESHOLDS self)) ->
  df <> [] ->
  (forall r, In r df -> (forall r', In r' df -> date r' <= date r) ->
             is_nan (close r) = true) ->
  exists result,
    analyze round2 fmt_2f self df stock_code stock_name now = Ok result /\
    Forall (fun s => signal s = NEUTRAL) (signals result) /\
    overall_signal result = NEUTRAL /\
    confidence result = 0.
Proof.
  intros Hpos Hne Hnan.
  destruct (analyze_nonempty round2 fmt_2f (fun s => signal s = NEUTRAL)
              self df stock_code stock_name now Hne)
    as (result & Hres & Hall & Hov & _).
  - intros last_row period d Hlast _ _ Hd.
    assert (Hcp : is_nan (close last_row) = true).
    { apply Hnan.
      - apply (Permutation_in _ (Permutation_sym (sort_values_perm df))).
        now apply iloc_last_in.
      - intros r' Hin.
        apply (sorted_last_greatest (sort_values df));
          [apply sort_values_sorted | exact Hlast |].
        now apply (Permutation_in _ (sort_values_perm df)). }
    destruct (nan_price_deviation self (close last_row)
                (calculate_ma self (close_column (sort_values df)) period) Hcp)
      as (d' & Hd' & Hcases).
    assert (d' = d) by congruence. subst d'.
    destruct (period_signal_fields round2 fmt_2f self (sort_values df)
                (close last_row) period d) as (Hs & _ & _).
    rewrite Hs. destruct Hcases as [-> | Hdn].
    + rewrite generate_signal_signal.
      destruct (zero_deviation_neutral (weak (THRESHOLDS self)) 0.0 false Hpos
                  eq_refl) as [H1 H2].
      now rewrite H1, H2.
    + rewrite generate_signal_signal.
      now rewrite (nan_not_leb_r _ d Hdn), (nan_not_leb_l d _ Hdn).
  - exists result. split; [exact Hres |]. split; [exact Hall |].
    rewrite (neutral_signals_overall self _ Hall) in Hov.
    inversion Hov. split; reflexivity.
Qed.

(** X15: under a positive weak threshold the classification is symmetric:
    the opposite deviation gets the signal of the other side (SELL for
    BUY, BUY for SELL, NEUTRAL for NEUTRAL) and the same strength. *)
Theorem classification_symmetric (self : MADeviationAnalyzer) (d : float)
    (label : string) :
  flt 0 (weak (THRESHOLDS self)) ->
  signal (generate_signal fmt_2f self (- d) label)
    = flip_side (signal (generate_signal fmt_2f self d label)) /\
  strength (generate_signal fmt_2f self (- d) label)
    = strength (generate_signal fmt_2f self d label).
Proof.
  unfold flt. intros Hpos. split.
  - rewrite !generate_signal_signal.
    rewrite (leb_opp_swap (weak (THRESHOLDS self)) d), leb_opp_opp.
    destruct (d <=? - weak (THRESHOLDS self))%float eqn:E.
    + now rewrite (leb_opp_not_leb _ d Hpos E).
    + destruct (weak (THRESHOLDS self) <=? d)%float; reflexivity.
  - rewrite !generate_signal_strength. unfold get_signal_strength.
    cbv zeta. now rewrite !leb_abs_opp.
Qed.

End Robustness.

(** * The reports *)

(** ** Grouping and sorting the results *)

(** X16: the three groups the reports count and list (overall BUY, SELL
    and NEUTRAL) split the results: together they hold every result
    exactly once, and the three counts add up to the number of results. *)
Theorem overall_groups_partition (results : list DeviationAnalysisResult) :
  Permutation results
    (with_overall BUY results ++ with_overall SELL results
       ++ with_overall NEUTRAL results)%list /\
  len (with_overall BUY results) + len (with_overall SELL results)
    + len (with_overall NEUTRAL results) = len results.
Proof.
  assert (Hp : Permutation results
            (with_overall BUY results ++ with_overall SELL results
               ++ with_overall NEUTRAL results)%list).
  { unfold with_overall.
    induction results as [|r results IH]; simpl; [constructor |].
    destruct (overall_signal r); simpl.
    - now constructor.
    - apply Permutation_cons_app. exact IH.
    - rewrite app_assoc. apply Permutation_cons_app.
      rewrite <- app_assoc. exact IH. }
  split; [exact Hp |].
  apply Permutation_length in Hp. rewrite !length_app in Hp.
  unfold len. lia.
Qed.

Lemma insert_by_confidence_perm (r : DeviationAnalysisResult)
    (l : list DeviationAnalysisResult) :
  Permutation (r :: l) (insert_by_confidence r l).
Proof.
  induction l as [|r' l IH]; simpl.
  - apply Permutation_refl.
  - destruct (confidence r' <? confidence r).
    + apply Permutation_refl.
    + apply perm_trans with (r' :: r :: l).
      * apply perm_swap.
      * apply perm_skip. exact IH.
Qed.

Lemma insert_by_confidence_sorted (r : DeviationAnalysisResult)
    (l : list DeviationAnalysisResult) :
  StronglySorted confidence_ge l ->
  StronglySorted confidence_ge (insert_by_confidence r l).
Proof.
  induction l as [|r' l IH]; intros Hs; simpl.
  - repeat constructor.
  - inversion Hs as [| ? ? Hs' Hall]; subst.
    destruct (Z.ltb_spec (confidence r') (confidence r)) as [Hlt | Hge].
    + constructor; [exact Hs |].
      constructor; [unfold confidence_ge; lia |].
      eapply Forall_impl; [| exact Hall].
      unfold confidence_ge. intros a Ha. lia.
    + constructor; [now apply IH |].
      apply (Permutation_Forall (insert_by_confidence_perm r l)).
      constructor; [exact Hge | exact Hall].
Qed.

Lemma filter_none {A : Type} (f : A -> bool) (l : list A) :
  (forall x, In x l -> f x = false) -> filter f l = [].
Proof.
  induction l as [|a l IH]; intros H; simpl; [reflexivity |].
  rewrite (H a (or_introl eq_refl)). apply IH.
  intros x Hx. apply H. now right.
Qed.

Lemma insert_by_confidence_stable (c : Z) (r : DeviationAnalysisResult)
    (l : list DeviationAnalysisResult) :
  StronglySorted confidence_ge l ->
  filter (fun x => confidence x =? c) (insert_by_confidence r l)
  = (filter (fun x => confidence x =? c) l
       ++ (if confidence r =? c then [r] else []))%list.
Proof.
  induction l as [|r' l IH]; intros Hs; simpl.
  - destruct (confidence r =? c); reflexivity.
  - inversion Hs as [| ? ? Hs' Hall]; subst.
    destruct (Z.ltb_spec (confidence r') (confidence r)) as [Hlt | Hge].
    + destruct (Z.eqb_spec (confidence r) c) as [Hc | Hc].
      * assert (Hnone : filter (fun x => confidence x =? c) (r' :: l) = []).
        { apply filter_none. intros x [<- | Hx].
          - apply Z.eqb_neq. lia.
          - rewrite Forall_forall in Hall. specialize (Hall x Hx).
            unfold confidence_ge in Hall.
            apply Z.eqb_neq. lia. }
        subst c. cbn [filter]. rewrite Z.eqb_refl.
        cbn [filter] in Hnone. rewrite Hnone. reflexivity.
      * cbn [filter]. apply Z.eqb_neq in Hc. rewrite Hc.
        now rewrite app_nil_r.
    + cbn [filter]. rewrite (IH Hs').
      destruct (confidence r' =? c); reflexivity.
Qed.

Lemma sorted_by_confidence_from (l acc : list DeviationAnalysisResult) :
  StronglySorted confidence_ge acc ->
  let out := fold_left (fun acc r => insert_by_confidence r acc) l acc in
  Permutation (l ++ acc) out /\
  StronglySorted confidence_ge out /\
  forall c, filter (fun x => confidence x =? c) out
            = (filter (fun x => confidence x =? c) acc
                 ++ filter (fun x => confidence x =? c) l)%list.
Proof.
  revert acc. induction l as [|r l IH]; intros acc Hs; simpl.
  - repeat split; [apply Permutation_refl | exact Hs |].
    intros c. now rewrite app_nil_r.
  - destruct (IH (insert_by_confidence r acc)
                 (insert_by_confidence_sorted r acc Hs)) as (Hp & Hso & Hst).
    repeat split.
    + eapply perm_trans; [| exact Hp].
      apply perm_trans with (l ++ r :: acc)%list.
      * apply Permutation_middle.
      * apply Permutation_app_head, insert_by_confidence_perm.
    + exact Hso.
    + intros c. rewrite Hst, insert_by_confidence_stable by exact Hs.
      rewrite <- app_assoc. f_equal.
      destruct (confidence r =? c); reflexivity.
Qed.

(** X17: the order in which the reports list a group: the sorted list
    holds the same results, the confidence never rises from one result to
    the next, and results of equal confidence keep the order they had in
    the batch. *)
Theorem sorted_by_confidence_order (results : list DeviationAnalysisResult) :
  Permutation results (sorted_by_confidence results) /\
  StronglySorted confidence_ge (sorted_by_confidence results) /\
  forall c, filter (fun r => confidence r =? c) (sorted_by_confidence results)
            = filter (fun r => confidence r =? c) results.
Proof.
  destruct (sorted_by_confidence_from results []) as (Hp & Hs & Hst);
    [constructor |].
  cbv zeta in Hp, Hs, Hst. fold (sorted_by_confidence results) in Hp, Hs, Hst.
  rewrite app_nil_r in Hp.
  repeat split; try assumption.
Qed.

(** ** The sections of the push report *)


Section ReportProperties.

Variable fmt_plus_2f : float -> string.
Variable str_float : float -> string.










End ReportProperties.

(** ** The strongest signal of the console summary *)

Lemma ltb_leb (x y : float) :
  (x <? y)%float = true -> (x <=? y)%float = true.
Proof.
  intros H. apply ltb_key in H. destruct H as (Hx & Hy & H).
  apply leb_key. repeat split; try assumption.
  remember (key x) as kx. remember (key y) as ky. clear Heqkx Heqky.
  split_keys. lia.
Qed.

Lemma not_ltb_leb (x y : float) :
  is_nan x = false -> is_nan y = false ->
  (x <? y)%float = false -> (y <=? x)%float = true.
Proof.
  intros Hx Hy H. apply leb_key. repeat split; try assumption.
  intros Hlt.
  assert ((x <? y)%float = true) by (apply ltb_key; tauto).
  congruence.
Qed.

Lemma ltb_leb_trans (a b c : float) :
  (a <? b)%float = true -> (b <=? c)%float = true -> (a <? c)%float = true.
Proof.
  intros Hab Hbc. apply ltb_key in Hab. apply leb_key in Hbc.
  destruct Hab as (Ha & Hb & Hab). destruct Hbc as (_ & Hc & Hbc).
  apply ltb_key. repeat split; try assumption.
  remember (key a) as ka. remember (key b) as kb. remember (key c) as kc.
  clear Heqka Heqkb Heqkc.
  split_keys. lia.
Qed.

(** [max] over keys that are not NaN returns an item of the list whose
    key is the greatest. *)
Lemma py_max_by_greatest {A : Type} (key : A -> float) (rest : list A) (x : A) :
  (forall y, In y (x :: rest) -> is_nan (key y) = false) ->
  let m := fold_left (fun best y => if (key best <? key y)%float then y else best)
                     rest x in
  In m (x :: rest) /\
  forall y, In y (x :: rest) -> (key y <=? key m)%float = true.
Proof.
  revert x. induction rest as [|a rest IH]; intros x Hn; cbn [fold_left];
    cbv zeta.
  - split; [now left |]. intros y [<- | []]. apply leb_refl. apply Hn. now left.
  - destruct (key x <? key a)%float eqn:E.
    + destruct (IH a) as [Hin Hmax].
      { intros y Hy. apply Hn. now right. }
      cbv zeta in Hin, Hmax. split; [now right |].
      intros y [<- | Hy].
      * apply leb_trans with (key a); [now apply ltb_leb |].
        apply Hmax. now left.
      * now apply Hmax.
    + destruct (IH x) as [Hin Hmax].
      { intros y [<- | Hy]; apply Hn; [now left | right; now right]. }
      cbv zeta in Hin, Hmax. split.
      { destruct Hin as [<- | Hin]; [now left | right; now right]. }
      intros y [<- | [<- | Hy]].
      * apply Hmax. now left.
      * apply leb_trans with (key x); [| apply Hmax; now left].
        apply not_ltb_leb; try assumption; apply Hn;
          [now left | right; now left].
      * apply Hmax. now right.
Qed.

Lemma overall_side_present (self : MADeviationAnalyzer)
    (sigs : list DeviationSignal) (side : Signal) :
  fst (_calculate_overall_signal self sigs) = side -> side <> NEUTRAL ->
  has_signal side sigs.
Proof.
  rewrite overall_signal_cases. cbv zeta.
  destruct (_ && _) eqn:E1.
  - simpl. intros <- _. apply andb_true_iff in E1. destruct E1 as [_ E1].
    apply Z.ltb_lt in E1. now apply count_side_pos.
  - clear E1. destruct (_ && _) eqn:E2.
    + simpl. intros <- _. apply andb_true_iff in E2. destruct E2 as [_ E2].
      apply Z.ltb_lt in E2. now apply count_side_pos.
    + simpl. intros <- H. exfalso. now apply H.
Qed.

Section Summary.

Variable round2 : float -> float.
Variable fmt_2f : float -> string.

(** Every signal of a result is classified by its own deviation. *)
Lemma analyze_signals_generated (self : MADeviationAnalyzer)
    (df : DataFrame) (stock_code stock_name now : string)
    (result : DeviationAnalysisResult) :
  analyze round2 fmt_2f self df stock_code stock_name now = Ok result ->
  Forall (fun s =>
            signal s =
              if (weak (THRESHOLDS self) <=? deviation_pct s)%float then SELL
              else if (deviation_pct s <=? - weak (THRESHOLDS self))%float
                   then BUY else NEUTRAL)
         (signals result).
Proof.
  intros Hres.
  assert (Hne : df <> []).
  { intros H. subst df. rewrite analyze_empty in Hres. discriminate. }
  destruct (analyze_nonempty round2 fmt_2f
              (fun s =>
                 signal s =
                   if (weak (THRESHOLDS self) <=? deviation_pct s)%float
                   then SELL
                   else if (deviation_pct s <=? - weak (THRESHOLDS self))%float
                        then BUY else NEUTRAL)
              self df stock_code stock_name now Hne)
    as (result' & Hres' & Hall & _).
  - intros last_row period d _ _ _ _.
    destruct (period_signal_fields round2 fmt_2f self (sort_values df)
                (close last_row) period d) as (Hs & _ & Hd).
    rewrite Hs, Hd. apply generate_signal_signal.
  - assert (result' = result) by congruence. now subst.
Qed.

(** X19: the signal the console summary shows under a BUY (or SELL)
    result.  For a result of [analyze] under a positive weak threshold
    whose overall signal is BUY or SELL, the [max] of
    [print_summary_report] does not raise, and the signal it picks is one
    of the result's signals of that side, with the greatest absolute
    deviation among them: the reason line is always printed. *)
Theorem strongest_signal_of_side (self : MADeviationAnalyzer)
    (df : DataFrame) (stock_code stock_name now : string)
    (result : DeviationAnalysisResult) (side : Signal) :
  flt 0 (weak (THRESHOLDS self)) ->
  analyze round2 fmt_2f self df stock_code stock_name now = Ok result ->
  overall_signal result = side -> side <> NEUTRAL ->
  exists s,
    strongest side (signals result) = Ok s /\
    In s (signals result) /\
    signal s = side /\
    forall s', In s' (signals result) -> signal s' = side ->
               fle (abs (deviation_pct s')) (abs (deviation_pct s)).
Proof.
  unfold flt, fle. intros Hpos Hres Hside Hnn.
  pose proof (analyze_signals_generated self df stock_code stock_name now
                result Hres) as Hgen.
  destruct (analyze_inv round2 fmt_2f self df stock_code stock_name now
              result Hres) as (_ & _ & _ & _ & Hov & _).
  assert (Hhas : has_signal side (signals result)).
  { apply (overall_side_present self); [| exact Hnn].
    rewrite <- Hov. exact Hside. }
  rewrite Forall_forall in Hgen.
  (* the key of a signal of the side is its absolute deviation, above 0 *)
  assert (Hkey : forall s, In s (signals result) -> signal s = side ->
            strongest_key side s = abs (deviation_pct s) /\
            (0 <? abs (deviation_pct s))%float = true).
  { intros s Hin Hs. split.
    - unfold strongest_key.
      now rewrite (proj2 (Signal_eqb_eq (signal s) side) Hs).
    - apply ltb_leb_trans with (weak (THRESHOLDS self)); [exact Hpos |].
      specialize (Hgen s Hin). rewrite Hs in Hgen.
      destruct (weak (THRESHOLDS self) <=? deviation_pct s)%float eqn:E1.
      + now apply leb_abs.
      + destruct (deviation_pct s <=? - weak (THRESHOLDS self))%float eqn:E2.
        * now apply leb_opp_abs.
        * congruence. }
  assert (Hnan : forall s, In s (signals result) ->
            is_nan (strongest_key side s) = false).
  { intros s Hin. destruct (Signal_eqb (signal s) side) eqn:E.
    - apply Signal_eqb_eq in E. destruct (Hkey s Hin E) as [-> Hlt].
      apply ltb_key in Hlt. tauto.
    - unfold strongest_key. rewrite E. reflexivity. }
  unfold has_signal in Hhas. apply Exists_exists in Hhas.
  destruct Hhas as (s0 & Hin0 & Hs0).
  unfold strongest, py_max_by.
  destruct (signals result) as [|x rest] eqn:Hsigs; [contradiction |].
  destruct (py_max_by_greatest (strongest_key side) rest x Hnan)
    as [Hin Hmax].
  cbv zeta in Hin, Hmax.
  set (m := fold_left _ rest x) in *.
  exists m. split; [reflexivity |]. split; [exact Hin |].
  assert (Hm : signal m = side).
  { destruct (Signal_eqb (signal m) side) eqn:E;
      [now apply Signal_eqb_eq |].
    exfalso. specialize (Hmax s0 Hin0).
    destruct (Hkey s0 Hin0 Hs0) as [Hk0 Hlt0].
    rewrite Hk0 in Hmax.
    assert (Hkm : strongest_key side m = 0%float)
      by (unfold strongest_key; now rewrite E).
    rewrite Hkm in Hmax.
    apply ltb_not_leb in Hlt0. congruence. }
  split; [exact Hm |].
  intros s' Hin' Hs'.
  specialize (Hmax s' Hin').
  destruct (Hkey s' Hin' Hs') as [Hk' _].
  destruct (Hkey m Hin Hm) as [Hkm _].
  now rewrite Hk', Hkm in Hmax.
Qed.

End Summary.

(** ** The batch run *)

Section BatchProperties.

Variable round2 : float -> float.
Variable fmt_2f : float -> string.
Variable get_real_stock_data : nat -> string -> option DataFrame.
Variable now_at : nat -> string.

Lemma batch_loop_results (analyzer : MADeviationAnalyzer)
    (stock_list : list string) (i : nat)
    (results : list DeviationAnalysisResult) :
  let out := batch_loop round2 fmt_2f get_real_stock_data now_at
               analyzer i stock_list results in
  map code out
    = app (map code results) (with_data get_real_stock_data i stock_list) /\
  (Forall (fun r => name r = "股票" ++ code r) results ->
   Forall (fun r => name r = "股票" ++ code r) out).
Proof.
  revert i results.
  induction stock_list as [|c rest IH]; intros i results; cbv zeta.
  - simpl. unfold with_data. simpl. rewrite app_nil_r. auto.
  - cbn [batch_loop].
    unfold with_data. cbn [List.length seq combine filter fst snd].
    fold (with_data get_real_stock_data (S i) rest).
    destruct (get_real_stock_data i c) as [df |] eqn:Hget.
    + destruct (Z.eqb_spec (len df) 0) as [Hz | Hnz]; cbn [negb].
      * apply IH.
      * assert (Hne : df <> []).
        { intros H. subst df. now apply Hnz. }
        destruct (analyze_nonempty round2 fmt_2f (fun _ => True) analyzer df
                    c ("股票" ++ c) (now_at i) Hne)
          as (result & Hres & _ & _ & Hcode & Hname & _);
          [intros; exact I |].
        rewrite Hres.
        destruct (IH (S i) (app results [result])) as [Hcodes Hnames].
        cbv zeta in Hcodes, Hnames. split.
        -- rewrite Hcodes, map_app. cbn [map]. rewrite Hcode.
           rewrite <- app_assoc. reflexivity.
        -- intros Hall. apply Hnames. apply Forall_app. split; [exact Hall |].
           constructor; [| constructor]. now rewrite Hname, Hcode.
    + apply IH.
Qed.

(** X20: the batch run loses no stock: for a non-empty stock list, the
    results it hands to the summary are, in the order of the list, one
    result for each stock whose data arrived and is not empty, under that
    stock's code and the name made from the code; no analysis of such a
    stock raises. *)
Theorem batch_keeps_every_stock (threshold : float) (stock_list : list string) :
  stock_list <> [] ->
  exists results,
    batch_analyze_with_real_data round2 fmt_2f get_real_stock_data now_at
      threshold stock_list = Some results /\
    map code results = with_data get_real_stock_data 1 stock_list /\
    Forall (fun r => name r = "股票" ++ code r) results.
Proof.
  intros Hne. unfold batch_analyze_with_real_data.
  destruct stock_list as [|c rest]; [now contradiction Hne |].
  eexists. split; [reflexivity |].
  destruct (batch_loop_results (__init__ threshold) (c :: rest) 1 [])
    as [Hcodes Hnames].
  cbv zeta in Hcodes, Hnames. split.
  - exact Hcodes.
  - apply Hnames. constructor.
Qed.

End BatchProperties.

(** ** The direction of the overall signal *)

(** A float that is not NaN is below, above or equal to a positive finite
    one. *)
Lemma positive_trichotomy (cp ma : float) :
  is_nan cp = false -> (0 <? ma)%float = true -> finite_float ma = true ->
  (cp <? ma)%float = true \/ (ma <? cp)%float = true \/ cp = ma.
Proof.
  intros Hcp Hpos Hfin.
  destruct (positive_finite ma Hpos Hfin) as (m & e & Hma).
  assert (Hnm : is_nan ma = false) by (unfold is_nan; now rewrite Hma).
  assert (Hk : key_lt (key cp) (key ma) \/ key_lt (key ma) (key cp)
               \/ key cp = key ma).
  { remember (key cp) as kc. remember (key ma) as km. clear Heqkc Heqkm.
    destruct kc as [[c1 e1] m1]. destruct km as [[c2 e2] m2].
    unfold key_lt.
    destruct (Z.eq_dec c1 c2); [| lia].
    destruct (Z.eq_dec e1 e2); [| lia].
    destruct (Z.eq_dec m1 m2); [| lia].
    right. right. congruence. }
  destruct Hk as [Hk | [Hk | Hk]].
  - left. apply ltb_key. tauto.
  - right. left. apply ltb_key. tauto.
  - right. right. apply Prim2SF_inj.
    unfold key, is_nan in *. rewrite Hma in *.
    destruct (Prim2SF cp) as [[|] | [|] | | [|] mc ec]; try discriminate;
      cbn [sf_key] in Hk; inversion Hk; subst; reflexivity.
Qed.

Section Direction2.

Variable round2 : float -> float.
Variable fmt_2f : float -> string.

(** Over a positive finite average and under a positive weak threshold,
    a BUY signal means a price below the average and a SELL signal a
    price above it. *)
Lemma classified_side_direction (self : MADeviationAnalyzer)
    (cp ma d : float) (label : string) :
  (0 <? weak (THRESHOLDS self))%float = true ->
  (0 <? ma)%float = true -> finite_float ma = true ->
  calculate_deviation self cp ma = Ok d ->
  (signal (generate_signal fmt_2f self d label) = BUY ->
     (cp <? ma)%float = true) /\
  (signal (generate_signal fmt_2f self d label) = SELL ->
     (ma <? cp)%float = true).
Proof.
  intros Hw Hpos Hfin Hd. rewrite generate_signal_signal.
  destruct (is_nan cp) eqn:Hcp.
  - destruct (nan_price_deviation self cp ma Hcp) as (d' & Hd' & Hcases).
    assert (d' = d) by congruence. subst d'.
    destruct Hcases as [-> | Hdn].
    + destruct (zero_deviation_neutral (weak (THRESHOLDS self)) 0.0 false Hw
                  eq_refl) as [H1 H2].
      rewrite H1, H2. split; discriminate.
    + rewrite (nan_not_leb_r _ d Hdn), (nan_not_leb_l d _ Hdn).
      split; discriminate.
  - destruct (positive_trichotomy cp ma Hcp Hpos Hfin) as [Hlt | [Hgt | Heq]].
    + split; [intros _; exact Hlt |].
      assert (Hd' : d = ((cp - ma) / ma * 100)%float).
      { destruct (positive_finite ma Hpos Hfin) as (m & e & Hma).
        rewrite calculate_deviation_nonzero in Hd; [congruence |].
        rewrite FloatAxioms.eqb_spec, Hma. reflexivity. }
      destruct (deviation_signed cp ma Hpos Hfin) as [_ Hdown].
      destruct (signed_not_classified (weak (THRESHOLDS self)) d Hw)
        as [_ Hc2].
      rewrite Hc2 by (rewrite Hd'; now apply Hdown).
      destruct (d <=? - weak (THRESHOLDS self))%float; discriminate.
    + split; [| intros _; exact Hgt].
      assert (Hd' : d = ((cp - ma) / ma * 100)%float).
      { destruct (positive_finite ma Hpos Hfin) as (m & e & Hma).
        rewrite calculate_deviation_nonzero in Hd; [congruence |].
        rewrite FloatAxioms.eqb_spec, Hma. reflexivity. }
      destruct (deviation_signed cp ma Hpos Hfin) as [Hup _].
      destruct (signed_not_classified (weak (THRESHOLDS self)) d Hw)
        as [Hc1 _].
      rewrite Hc1 by (rewrite Hd'; now apply Hup).
      destruct (weak (THRESHOLDS self) <=? d)%float; discriminate.
    + subst cp.
      destruct (deviation_of_equal self ma Hfin) as (d' & s & Hd' & Hzero).
      assert (d' = d) by congruence. subst d'.
      destruct (zero_deviation_neutral _ d s Hw Hzero) as [H1 H2].
      rewrite H1, H2. split; discriminate.
Qed.

Lemma evaluated_periods_in (n period : Z) :
  In period (evaluated_periods n) <-> In period ma_periods /\ period <= n.
Proof.
  unfold evaluated_periods. rewrite filter_In, Z.leb_le. reflexivity.
Qed.

(** X21: the overall signal points the way the price left the averages.
    Under a positive weak threshold, when the moving averages of the
    evaluated periods are positive and finite, a result whose overall
    signal is BUY has the latest close strictly below the moving average
    of some evaluated period, and one whose overall signal is SELL has it
    strictly above one. *)
Theorem overall_signal_direction (self : MADeviationAnalyzer)
    (df : DataFrame) (stock_code stock_name now : string)
    (result : DeviationAnalysisResult) :
  flt 0 (weak (THRESHOLDS self)) ->
  analyze round2 fmt_2f self df stock_code stock_name now = Ok result ->
  (forall period, In period (evaluated_periods (len df)) ->
     flt 0 (calculate_ma self (close_column (sort_values df)) period) /\
     finite_float (calculate_ma self (close_column (sort_values df)) period)
       = true) ->
  exists last_row,
    iloc_last (sort_values df) = Ok last_row /\
    (overall_signal result = BUY ->
       exists period,
         In period (evaluated_periods (len df)) /\
         flt (close last_row)
             (calculate_ma self (close_column (sort_values df)) period)) /\
    (overall_signal result = SELL ->
       exists period,
         In period (evaluated_periods (len df)) /\
         flt (calculate_ma self (close_column (sort_values df)) period)
             (close last_row)).
Proof.
  unfold flt. intros Hw Hres Hma.
  assert (Hne : df <> []).
  { intros H. subst df. rewrite analyze_empty in Hres. discriminate. }
  destruct (analyze_inv round2 fmt_2f self df stock_code stock_name now
              result Hres) as (last_row & Hlast & _ & _ & Hov & _).
  destruct (analyze_nonempty round2 fmt_2f
              (fun s =>
                 exists period d,
                   In period (evaluated_periods (len df)) /\
                   (forall lr, iloc_last (sort_values df) = Ok lr ->
                      calculate_deviation self (close lr)
                        (calculate_ma self (close_column (sort_values df)) period)
                        = Ok d) /\
                   signal s
                     = signal (generate_signal fmt_2f self d
                                 ("MA" ++ str_int period)))
              self df stock_code stock_name now Hne)
    as (result' & Hres' & Hall & _).
  - intros lr period d Hlr Hin Hle Hd.
    exists period, d. split; [now apply evaluated_periods_in |].
    split.
    + intros lr' Hlr'. assert (lr' = lr) by congruence. now subst.
    + now destruct (period_signal_fields round2 fmt_2f self (sort_values df)
                      (close lr) period d) as (Hs & _ & _).
  - assert (result' = result) by congruence. subst result'.
    rewrite Forall_forall in Hall.
    assert (Hside : forall side, side <> NEUTRAL ->
              overall_signal result = side ->
              exists s period d,
                In s (signals result) /\ signal s = side /\
                In period (evaluated_periods (len df)) /\
                calculate_deviation self (close last_row)
                  (calculate_ma self (close_column (sort_values df)) period)
                  = Ok d /\
                signal (generate_signal fmt_2f self d ("MA" ++ str_int period))
                  = side).
    { intros side Hnn Hside.
      assert (Hhas : has_signal side (signals result)).
      { apply (overall_side_present self); [| exact Hnn].
        rewrite <- Hov. exact Hside. }
      apply Exists_exists in Hhas. destruct Hhas as (s & Hin & Hs).
      destruct (Hall s Hin) as (period & d & Hp & Hd & Hsig).
      exists s, period, d. repeat split; try assumption.
      - now apply Hd.
      - congruence. }
    exists last_row. split; [exact Hlast |]. split; intros Ho.
    + destruct (Hside BUY ltac:(discriminate) Ho)
        as (s & period & d & _ & _ & Hp & Hd & Hsig).
      exists period. split; [exact Hp |].
      destruct (Hma period Hp) as [Hpos Hfin].
      now apply (classified_side_direction self (close last_row) _ d
                   ("MA" ++ str_int period) Hw Hpos Hfin Hd).
    + destruct (Hside SELL ltac:(discriminate) Ho)
        as (s & period & d & _ & _ & Hp & Hd & Hsig).
      exists period. split; [exact Hp |].
      destruct (Hma period Hp) as [Hpos Hfin].
      now apply (classified_side_direction self (close last_row) _ d
                   ("MA" ++ str_int period) Hw Hpos Hfin Hd).
Qed.

End Direction2.

(** ** The rows that matter *)

Lemma dates_ascend_sorted (df : DataFrame) :
  dates_ascend df = true -> StronglySorted date_le df.
Proof.
  intros H. apply Sorted_StronglySorted.
  { intros a b c; unfold date_le; lia. }
  induction df as [|r rest IH]; [constructor |].
  destruct rest as [|r' rest'].
  - repeat constructor.
  - cbn [dates_ascend] in H. apply andb_true_iff in H. destruct H as [Hlt Hrest].
    apply Z.ltb_lt in Hlt.
    constructor; [now apply IH |].
    constructor. unfold date_le. lia.
Qed.

Lemma StronglySorted_app_r {A : Type} (R : A -> A -> Prop) (l1 l2 : list A) :
  StronglySorted R (l1 ++ l2) -> StronglySorted R l2.
Proof.
  induction l1 as [|a l1 IH]; simpl; intros H; [exact H |].
  inversion H; subst. now apply IH.
Qed.

Lemma tail_app {A : Type} (period : Z) (l1 l2 : list A) :
  0 < period <= len l2 -> tail period (l1 ++ l2) = tail period l2.
Proof.
  intros [Hpos Hle]. unfold tail.
  destruct (Z.eqb_spec period 0); [lia |].
  destruct (Z.ltb_spec 0 period); [| lia].
  unfold len in *. rewrite length_app, skipn_app.
  replace (Z.to_nat (Z.of_nat (List.length l1 + List.length l2) - period))
    with (List.length l1 + Z.to_nat (Z.of_nat (List.length l2) - period))%nat
    by lia.
  rewrite skipn_all2 by lia.
  cbn [app]. f_equal. lia.
Qed.

Section Window.

Variable round2 : float -> float.
Variable fmt_2f : float -> string.

Lemma analyze_period_window (self : MADeviationAnalyzer) (d1 d2 : DataFrame)
    (cp : float) (st : list DeviationSignal * list (string * RawEntry))
    (period : Z) :
  0 < period <= len d2 ->
  analyze_period round2 fmt_2f self (d1 ++ d2)%list cp st period
  = analyze_period round2 fmt_2f self d2 cp st period.
Proof.
  intros Hp. unfold analyze_period. destruct st as [sigs raw].
  assert (Hlen : len (d1 ++ d2)%list = len d1 + len d2).
  { unfold len. rewrite length_app. lia. }
  assert (H1 : 0 <= len d1) by (unfold len; lia).
  destruct (Z.ltb_spec (len (d1 ++ d2)%list) period); [lia |].
  destruct (Z.ltb_spec (len d2) period); [lia |].
  assert (Hma : calculate_ma self (close_column (d1 ++ d2)%list) period
                = calculate_ma self (close_column d2) period).
  { unfold calculate_ma, close_column. rewrite map_app.
    assert (Hl2 : len (map close d2) = len d2)
      by (unfold len; now rewrite length_map).
    assert (Hl : len (map close d1 ++ map close d2)%list = len d1 + len d2).
    { unfold len. rewrite length_app, !length_map. lia. }
    rewrite Hl, Hl2.
    destruct (Z.ltb_spec (len d1 + len d2) period); [lia |].
    destruct (Z.ltb_spec (len d2) period); [lia |].
    rewrite tail_app by (rewrite Hl2; exact Hp). reflexivity. }
  rewrite Hma. reflexivity.
Qed.

Lemma analyze_loop_window (self : MADeviationAnalyzer) (d1 d2 : DataFrame)
    (cp : float) (periods : list Z)
    (st : list DeviationSignal * list (string * RawEntry)) :
  Forall (fun period => 0 < period <= len d2) periods ->
  analyze_loop round2 fmt_2f self (d1 ++ d2)%list cp periods st
  = analyze_loop round2 fmt_2f self d2 cp periods st.
Proof.
  revert st. induction periods as [|period rest IH]; intros st Hall;
    cbn [analyze_loop]; [reflexivity |].
  inversion Hall as [| ? ? Hp Hrest]; subst.
  rewrite analyze_period_window by exact Hp.
  destruct (analyze_period round2 fmt_2f self d2 cp st period); cbn [bind];
    [now apply IH | reflexivity].
Qed.

(** X22: only the latest 60 rows matter.  On a history in strictly
    ascending date order, the rows before the last 60 (or more) have no
    influence: leaving them out gives the same result. *)
Theorem analyze_window (self : MADeviationAnalyzer) (older recent : DataFrame)
    (stock_code stock_name now : string) :
  dates_ascend (older ++ recent)%list = true ->
  60 <= len recent ->
  analyze round2 fmt_2f self (older ++ recent)%list stock_code stock_name now
  = analyze round2 fmt_2f self recent stock_code stock_name now.
Proof.
  intros Hasc Hlen.
  apply dates_ascend_sorted in Hasc.
  assert (Hs1 : sort_values (older ++ recent)%list = (older ++ recent)%list).
  { unfold sort_values. now rewrite sort_from_sorted_id. }
  assert (Hs2 : sort_values recent = recent).
  { unfold sort_values. rewrite sort_from_sorted_id; [reflexivity |].
    now apply StronglySorted_app_r in Hasc. }
  unfold analyze. rewrite Hs1, Hs2.
  assert (Hl : len (older ++ recent)%list = len older + len recent).
  { unfold len. rewrite length_app. lia. }
  assert (H0 : 0 <= len older) by (unfold len; lia).
  destruct (Z.eqb_spec (len (older ++ recent)%list) 0); [lia |].
  destruct (Z.eqb_spec (len recent) 0); [lia |].
  assert (Hlast : iloc_last (older ++ recent)%list = iloc_last recent).
  { unfold iloc_last. rewrite rev_app_distr.
    destruct (rev recent) as [|r rest] eqn:E; [| reflexivity].
    exfalso. assert (recent = []).
    { rewrite <- (rev_involutive recent), E. reflexivity. }
    subst recent. unfold len in Hlen. simpl in Hlen. lia. }
  rewrite Hlast.
  destruct (iloc_last recent) as [last_row | e]; cbn [bind]; [| reflexivity].
  rewrite analyze_loop_window; [reflexivity |].
  unfold ma_periods. repeat constructor; lia.
Qed.

End Window.

(** ** The advice of the single report *)

Section Advice.

Variable round2 : float -> float.
Variable fmt_2f : float -> string.
Variable fmt_plus_2f : float -> string.
Variable str_float : float -> string.



End Advice.

(** * The further properties at concrete inputs *)

Lemma overall_signal_order_witness :
  _calculate_overall_signal (__init__ 1.5)
    [sample_signal BUY STRONG; sample_signal SELL WEAK]
  = _calculate_overall_signal (__init__ 1.5)
      [sample_signal SELL WEAK; sample_signal BUY STRONG].
Proof.
  apply (overall_signal_order (__init__ 1.5)
           [sample_signal BUY STRONG; sample_signal SELL WEAK]
           [sample_signal SELL WEAK; sample_signal BUY STRONG]).
  apply perm_swap.
Defined.

Lemma strength_monotone_witness :
  strength_weights (get_signal_strength (__init__ 1.5) 2.0)
  <= strength_weights (get_signal_strength (__init__ 1.5) (-3.0)).
Proof.
  apply (strength_monotone (__init__ 1.5) 2.0 (-3.0)).
  reflexivity.
Defined.

Lemma deviation_direction_witness :
  exists d,
    calculate_deviation (__init__ 1.5) 97 100 = Ok d /\
    (flt 100 97 ->
       fge d 0 /\
       signal (generate_signal fmt_2f_py (__init__ 1.5) d "MA5") <> BUY) /\
    (flt 97 100 ->
       fle d 0 /\
       signal (generate_signal fmt_2f_py (__init__ 1.5) d "MA5") <> SELL).
Proof.
  apply (deviation_direction fmt_2f_py (__init__ 1.5) 97 100 "MA5");
    reflexivity.
Defined.

Lemma analyze_signals_shape_witness :
  exists result,
    analyze round2_np fmt_2f_py (__init__ 1.5) falling_history "600519"
      "贵州茅台" "2024-01-05 15:00:00" = Ok result /\
    map ma_type (signals result)
      = map (fun period => "MA" ++ str_int period)
            (evaluated_periods (len falling_history)) /\
    Forall (fun s => current_price s = result_current_price result)
           (signals result) /\
    raw_data result = map (raw_entry_of round2_np) (signals result).
Proof.
  eexists. split; [vm_compute; reflexivity |].
  apply (analyze_signals_shape round2_np fmt_2f_py (__init__ 1.5)
           falling_history "600519" "贵州茅台" "2024-01-05 15:00:00").
  vm_compute. reflexivity.
Defined.

Lemma analyze_current_price_latest_witness :
  exists result,
    analyze round2_np fmt_2f_py (__init__ 1.5) falling_history "600519"
      "贵州茅台" "2024-01-05 15:00:00" = Ok result /\
    exists r,
      In r falling_history /\
      (forall r', In r' falling_history -> date r' <= date r) /\
      result_current_price result = round2_np (close r).
Proof.
  eexists. split; [vm_compute; reflexivity |].
  apply (analyze_current_price_latest round2_np fmt_2f_py (__init__ 1.5)
           falling_history "600519" "贵州茅台" "2024-01-05 15:00:00").
  vm_compute. reflexivity.
Defined.

Lemma analyze_row_order_witness :
  analyze round2_np fmt_2f_py (__init__ 1.5) short_history "600519"
    "贵州茅台" "2024-01-05 15:00:00"
  = analyze round2_np fmt_2f_py (__init__ 1.5) (rev short_history) "600519"
      "贵州茅台" "2024-01-05 15:00:00".
Proof.
  apply (analyze_row_order round2_np fmt_2f_py (__init__ 1.5)
           short_history (rev short_history)).
  - apply Permutation_rev.
  - vm_compute. repeat constructor; simpl; intros H;
      repeat (destruct H as [H | H]); try discriminate H; exact H.
Defined.

Lemma analyze_signals_consistent_witness :
  exists result,
    analyze round2_np fmt_2f_py (__init__ 1.5) falling_history "600519"
      "贵州茅台" "2024-01-05 15:00:00" = Ok result /\
    Forall (fun s =>
              strength s = get_signal_strength (__init__ 1.5) (deviation_pct s) /\
              (signal s = SELL <->
                 fge (deviation_pct s) (weak (THRESHOLDS (__init__ 1.5)))) /\
              (signal s = BUY <->
                 ~ fge (deviation_pct s) (weak (THRESHOLDS (__init__ 1.5))) /\
                 fle (deviation_pct s) (- weak (THRESHOLDS (__init__ 1.5)))))
           (signals result).
Proof.
  eexists. split; [vm_compute; reflexivity |].
  apply (analyze_signals_consistent round2_np fmt_2f_py (__init__ 1.5)
           falling_history "600519" "贵州茅台" "2024-01-05 15:00:00").
  vm_compute. reflexivity.
Defined.

Lemma nan_deviation_neutral_witness :
  signal (generate_signal fmt_2f_py (__init__ 1.5) nan "MA5") = NEUTRAL /\
  strength (generate_signal fmt_2f_py (__init__ 1.5) nan "MA5") = NONE.
Proof.
  apply (nan_deviation_neutral fmt_2f_py (__init__ 1.5) nan "MA5").
  reflexivity.
Defined.

Lemma nan_price_neutral_witness :
  exists result,
    analyze round2_np fmt_2f_py (__init__ 1.5) nan_last_history "600519"
      "贵州茅台" "2024-01-05 15:00:00" = Ok result /\
    Forall (fun s => signal s = NEUTRAL) (signals result) /\
    overall_signal result = NEUTRAL /\
    confidence result = 0.
Proof.
  apply (nan_price_neutral round2_np fmt_2f_py (__init__ 1.5)
           nan_last_history "600519" "贵州茅台" "2024-01-05 15:00:00").
  - reflexivity.
  - discriminate.
  - intros r Hin Hmax.
    assert (Hlast : In (mkRow 6 nan) nan_last_history)
      by (simpl; tauto).
    specialize (Hmax _ Hlast).
    simpl in Hin.
    repeat (destruct Hin as [Hin | Hin]); try contradiction;
      subst r; simpl in Hmax; first [reflexivity | lia].
Defined.

Lemma classification_symmetric_witness :
  signal (generate_signal fmt_2f_py (__init__ 1.5) (- 3) "MA5")
    = flip_side (signal (generate_signal fmt_2f_py (__init__ 1.5) 3 "MA5")) /\
  strength (generate_signal fmt_2f_py (__init__ 1.5) (- 3) "MA5")
    = strength (generate_signal fmt_2f_py (__init__ 1.5) 3 "MA5").
Proof.
  apply (classification_symmetric fmt_2f_py (__init__ 1.5) 3 "MA5").
  reflexivity.
Defined.

Lemma strongest_signal_of_side_witness :
  exists result,
    analyze round2_np fmt_2f_py (__init__ 1.5) falling_history "600519"
      "贵州茅台" "2024-01-05 15:00:00" = Ok result /\
    exists s,
      strongest BUY (signals result) = Ok s /\
      In s (signals result) /\
      signal s = BUY /\
      forall s', In s' (signals result) -> signal s' = BUY ->
                 fle (abs (deviation_pct s')) (abs (deviation_pct s)).
Proof.
  eexists. split; [vm_compute; reflexivity |].
  apply (strongest_signal_of_side round2_np fmt_2f_py (__init__ 1.5)
           falling_history "600519" "贵州茅台" "2024-01-05 15:00:00").
  - reflexivity.
  - vm_compute. reflexivity.
  - reflexivity.
  - discriminate.
Defined.

Lemma batch_keeps_every_stock_witness :
  exists results,
    batch_analyze_with_real_data round2_np fmt_2f_py sample_provider
      sample_clock 1.5 ["600519"; "000001"] = Some results /\
    map code results = with_data sample_provider 1 ["600519"; "000001"] /\
    Forall (fun r => name r = "股票" ++ code r) results.
Proof.
  apply (batch_keeps_every_stock round2_np fmt_2f_py sample_provider
           sample_clock 1.5 ["600519"; "000001"]).
  discriminate.
Defined.

Lemma overall_signal_direction_witness :
  exists result last_row,
    analyze round2_np fmt_2f_py (__init__ 1.5) falling_history "600519"
      "贵州茅台" "2024-01-05 15:00:00" = Ok result /\
    iloc_last (sort_values falling_history) = Ok last_row /\
    exists period,
      In period (evaluated_periods (len falling_history)) /\
      flt (close last_row)
          (calculate_ma (__init__ 1.5)
             (close_column (sort_values falling_history)) period).
Proof.
  eexists.
  assert (Hres : analyze round2_np fmt_2f_py (__init__ 1.5) falling_history
                   "600519" "贵州茅台" "2024-01-05 15:00:00" = Ok _)
    by (vm_compute; reflexivity).
  destruct (overall_signal_direction round2_np fmt_2f_py (__init__ 1.5)
              falling_history "600519" "贵州茅台" "2024-01-05 15:00:00" _
              eq_refl Hres) as (last_row & Hlast & Hbuy & _).
  - intros period Hin. vm_compute in Hin.
    repeat (destruct Hin as [Hin | Hin]); try contradiction; subst period;
      split; vm_compute; reflexivity.
  - exists last_row. split; [exact Hres |]. split; [exact Hlast |].
    apply Hbuy. reflexivity.
Defined.

Lemma analyze_window_witness :
  analyze round2_np fmt_2f_py (__init__ 1.5) long_history "600519"
    "贵州茅台" "2024-01-05 15:00:00"
  = analyze round2_np fmt_2f_py (__init__ 1.5) (skipn 10 long_history)
      "600519" "贵州茅台" "2024-01-05 15:00:00".
Proof.
  rewrite <- (firstn_skipn 10 long_history) at 1.
  apply (analyze_window round2_np fmt_2f_py (__init__ 1.5)
           (firstn 10 long_history) (skipn 10 long_history)).
  - vm_compute. reflexivity.
  - vm_compute. discriminate.
Defined.

